(** * OptimizedLoadScheduling: a shallow embedding and its properties

    Source: [src/xdist/scheduler/load_optimized.py].  The class
    [OptimizedLoadScheduling] overrides [check_schedule] and [schedule] of
    the base scheduler and fixes both queue-size bounds to 2.

    The scheduler object is a record; every method is a function in a small
    state-and-exception monad over that record.  Node objects are referenced
    by the scheduler and mutated through it, so they live in a store that is
    part of the state. *)

From Stdlib Require Import QArith.
From stdpp Require Import base list gmap strings.

Local Open Scope nat_scope.

(** ** Data *)

(** A node is a Python object used as a dictionary key: only its identity
    matters to the scheduler. *)
Definition node := nat.

(** The [duration] argument is a Python number.  Finite values are kept as
    exact rationals; the three special floats are separate constructors. *)
Inductive duration :=
| Finite (q : Q)
| PosInf
| NegInf
| NaN.

(** The literal [0.1] of line 49 denotes the double nearest to one tenth,
    which is 3602879701896397 / 2^55. *)
Definition slow_threshold : Q := Qmake 3602879701896397 36028797018963968.

(** [duration >= 0.1] *)
Definition duration_ge_threshold (d : duration) : bool :=
  match d with
  | Finite q => Qle_bool slow_threshold q
  | PosInf => true
  | NegInf => false
  | NaN => false
  end.

(** The default [duration=0] of [check_schedule]. *)
Definition duration_default : duration := Finite (Qmake 0 1).

(** The float written [0.2]: 3602879701896397 / 2^54. *)
Definition duration_0_2 : duration :=
  Finite (Qmake 3602879701896397 18014398509481984).

(** Modelled from the spec: the Node collaborator (its class is not part of
    the scheduler module).  A node carries a boolean draining flag that the
    shutdown signal sets; the two operations the scheduler invokes on it are
    recorded so that signals and dispatches can be counted. *)
Record node_obj := NodeObj {
  shutting_down : bool;
  shutdown_calls : nat;
  dispatched : list (list nat)
}.

Definition fresh_node : node_obj := NodeObj false 0 [].

(** Diagnostics.  The f-string of lines 59 and 110 is kept in structured
    form: prefix, method name and the snapshot of [node2pending]. *)
Inductive message :=
| MsgAbort
| MsgQueues (prefix meth : string) (snapshot : list (node * list nat))
| MsgWaiting (n : nat).

Inductive output :=
| Printed (m : message)
| Logged (m : message).

Inductive exn :=
| AssertionError
| KeyError
| IndexError
| ValueError
| StopIteration.

(** The scheduler object together with the node objects it points to. *)
Record scheduler := Scheduler {
  node2collection : list (node * list string);
  node2pending : list (node * list nat);
  pending : list nat;
  collection : option (list string);
  _min_queue_size : nat;
  _max_queue_size : nat;
  _log_prefix : string;
  node_objs : gmap node node_obj;
  out : list output
}.

Definition set_node2collection (v : list (node * list string)) (s : scheduler) :=
  Scheduler v (node2pending s) (pending s) (collection s) (_min_queue_size s)
            (_max_queue_size s) (_log_prefix s) (node_objs s) (out s).
Definition set_node2pending (v : list (node * list nat)) (s : scheduler) :=
  Scheduler (node2collection s) v (pending s) (collection s) (_min_queue_size s)
            (_max_queue_size s) (_log_prefix s) (node_objs s) (out s).
Definition set_pending (v : list nat) (s : scheduler) :=
  Scheduler (node2collection s) (node2pending s) v (collection s)
            (_min_queue_size s) (_max_queue_size s) (_log_prefix s)
            (node_objs s) (out s).
Definition set_collection (v : option (list string)) (s : scheduler) :=
  Scheduler (node2collection s) (node2pending s) (pending s) v
            (_min_queue_size s) (_max_queue_size s) (_log_prefix s)
            (node_objs s) (out s).
Definition set_node_objs (v : gmap node node_obj) (s : scheduler) :=
  Scheduler (node2collection s) (node2pending s) (pending s) (collection s)
            (_min_queue_size s) (_max_queue_size s) (_log_prefix s) v (out s).
Definition set_out (v : list output) (s : scheduler) :=
  Scheduler (node2collection s) (node2pending s) (pending s) (collection s)
            (_min_queue_size s) (_max_queue_size s) (_log_prefix s)
            (node_objs s) v.

(** ** Python dictionaries with insertion order *)

Module Dict.
Section Dict.
Context {V : Type}.

Fixpoint get (k : node) (d : list (node * V)) : option V :=
  match d with
  | [] => None
  | (k', v) :: d' => if decide (k' = k) then Some v else get k d'
  end.

(** [d[k] = v]: an existing key keeps its position, a new one goes last. *)
Fixpoint set (k : node) (v : V) (d : list (node * V)) : list (node * V) :=
  match d with
  | [] => [(k, v)]
  | (k', v') :: d' =>
      if decide (k' = k) then (k, v) :: d' else (k', v') :: set k v d'
  end.

Definition keys (d : list (node * V)) : list node := map fst d.
Definition values (d : list (node * V)) : list V := map snd d.
End Dict.
End Dict.

(** ** The monad: state plus Python exceptions *)

Inductive outcome (A : Type) :=
| Return (a : A) (s : scheduler)
| Raise (e : exn) (s : scheduler).
Arguments Return {A} a s.
Arguments Raise {A} e s.

Definition M (A : Type) := scheduler → outcome A.

Definition ret {A} (a : A) : M A := fun s => Return a s.
Definition raise {A} (e : exn) : M A := fun s => Raise e s.
Definition bind {A B} (m : M A) (k : A → M B) : M B := fun s =>
  match m s with
  | Return a s' => k a s'
  | Raise e s' => Raise e s'
  end.
Definition modify (f : scheduler → scheduler) : M unit := fun s => Return tt (f s).

Notation "m ;;; k" := (bind m (fun _ => k))
  (at level 100, right associativity).

(** The state a call leaves behind, whether it returned or raised. *)
Definition state_of {A} (r : outcome A) : scheduler :=
  match r with
  | Return _ s => s
  | Raise _ s => s
  end.

Definition returned {A} (r : outcome A) : bool :=
  match r with
  | Return _ _ => true
  | Raise _ _ => false
  end.

(** [for x in xs: body(x)] *)
Fixpoint for_each {A} (xs : list A) (body : A → M unit) : M unit :=
  match xs with
  | [] => ret tt
  | x :: xs' => body x ;;; for_each xs' body
  end.

(** ** Node objects *)

Definition node_of (n : node) (s : scheduler) : node_obj :=
  default fresh_node (node_objs s !! n).

(** Modelled from the spec: [node.shutdown()], the one-shot shutdown signal;
    it sets the draining flag of the node. *)
Definition node_shutdown (n : node) : M unit := modify (fun s =>
  let o := node_of n s in
  set_node_objs
    (<[n := NodeObj true (S (shutdown_calls o)) (dispatched o)]> (node_objs s)) s).

(** Modelled from the spec: the dispatch operation of the Node collaborator
    ([dispatchItems]), fire-and-forget; the node records what it was sent. *)
Definition node_dispatch_items (n : node) (tests : list nat) : M unit :=
  modify (fun s =>
    let o := node_of n s in
    set_node_objs
      (<[n := NodeObj (shutting_down o) (shutdown_calls o)
                      (dispatched o ++ [tests])]> (node_objs s)) s).

(** ** Members inherited from the base scheduler *)

(** Modelled from the spec: [self.nodes] of the base scheduler; the currently
    known nodes, which are the keys of the per-node queue map, in the order
    in which they joined. *)
Definition nodes (s : scheduler) : list node := Dict.keys (node2pending s).

(** Modelled from the spec: [collection_is_completed] of the base scheduler;
    the collection-complete signal has fired for all currently known nodes. *)
Definition collection_is_completed (s : scheduler) : bool :=
  forallb (fun n => bool_decide (n ∈ Dict.keys (node2collection s))) (nodes s).

(** Modelled from the spec: [_check_nodes_have_same_collection] of the base
    scheduler; all reported collections are identical, index for index. *)
Definition _check_nodes_have_same_collection (s : scheduler) : bool :=
  match Dict.values (node2collection s) with
  | [] => true
  | c :: cs => forallb (fun c' => bool_decide (c' = c)) cs
  end.

(** Modelled from the spec: [_send_tests(node, num)] of the base scheduler;
    [num] indices (fewer if Pending holds less) move from the front of
    Pending to the queue of the node and are dispatched to it.  Nothing
    happens when there is nothing to move, which includes a count that is
    not positive (the spec speaks of counts from 0 up).  The node has to be
    known; the callers below only pass known nodes. *)
Definition _send_tests (n : node) (num : Z) : M unit := fun s =>
  let tests_per_node := take (Z.to_nat num) (pending s) in
  match tests_per_node with
  | [] => Return tt s
  | _ :: _ =>
      match Dict.get n (node2pending s) with
      | None => Raise KeyError s
      | Some q =>
          node_dispatch_items n tests_per_node
            (set_node2pending (Dict.set n (q ++ tests_per_node) (node2pending s))
               (set_pending (drop (Z.to_nat num) (pending s)) s))
      end
  end.

(** Modelled from the spec: [self.log(msg)], the diagnostics sink of the
    base scheduler, records the message. *)
Definition log (m : message) : M unit :=
  modify (fun s => set_out (out s ++ [Logged m]) s).

(** [print(msg)] *)
Definition print (m : message) : M unit :=
  modify (fun s => set_out (out s ++ [Printed m]) s).

(** Lines 59-61 and 110-112. *)
Definition queue_log (meth : string) : M unit := fun s =>
  let m := MsgQueues (_log_prefix s) meth (node2pending s) in
  (print m ;;; log m) s.

(** ** The two methods of [OptimizedLoadScheduling] *)

(** Modelled from the spec: the base constructor ([super().__init__]), which
    creates Pending and the per-node maps empty and leaves the collection
    unset.  Lines 23-27 of the source then write the two bounds and the log
    prefix.  [objs] is the node store the scheduler starts with. *)
Definition init (objs : gmap node node_obj) : scheduler :=
  {| node2collection := []; node2pending := []; pending := [];
     collection := None;
     _min_queue_size := 2; _max_queue_size := 2; _log_prefix := "XDIST"%string;
     node_objs := objs; out := [] |}.

(** Lines 59-62, the diagnostics at the end of [check_schedule]. *)
Definition check_schedule_log : M unit :=
  queue_log "check_schedule"%string ;;;
  (fun s => log (MsgWaiting (length (pending s))) s).

(** [check_schedule], lines 29-62.  The two [return] statements leave
    without the diagnostics; every other path ends with them. *)
Definition check_schedule (n : node) (d : duration) : M unit := fun s =>
  if shutting_down (node_of n s) then Return tt s
  else
    match pending s with
    | _ :: _ =>
        let items_per_node_min := _min_queue_size s in
        let items_per_node_max := _max_queue_size s in
        match Dict.get n (node2pending s) with
        | None => Raise KeyError s
        | Some node_pending =>
            if decide (length node_pending < items_per_node_min) then
              if duration_ge_threshold d
                 && bool_decide (_max_queue_size s ≤ length node_pending)
              then Return tt s
              else
                let num_send :=
                  (Z.of_nat items_per_node_max - Z.of_nat (length node_pending))%Z in
                (_send_tests n num_send ;;; check_schedule_log) s
            else check_schedule_log s
        end
    | [] => (node_shutdown n ;;; check_schedule_log) s
    end.

(** [itertools.cycle]: the elements still to come in the first pass, and
    the saved copy that later passes replay. *)
Record cycle_it := Cycle { upcoming : list node; saved : list node }.

Definition cycle (xs : list node) : cycle_it := Cycle xs xs.

Definition next (it : cycle_it) : option (node * cycle_it) :=
  match upcoming it with
  | x :: r => Some (x, Cycle r (saved it))
  | [] =>
      match saved it with
      | x :: r => Some (x, Cycle r (saved it))
      | [] => None
      end
  end.

(** Lines 102-103: [for i in range(count): self._send_tests(next(nodes), 1)] *)
Fixpoint distribute (count : nat) (it : cycle_it) : M unit :=
  match count with
  | 0 => ret tt
  | S k =>
      match next it with
      | None => raise StopIteration
      | Some (n, it') => _send_tests n 1 ;;; distribute k it'
      end
  end.

Definition initial_batch (s : scheduler) : nat :=
  _max_queue_size s * length (nodes s).

(** Lines 105-108: once the initial distribution has emptied Pending,
    every known node gets the shutdown signal. *)
Definition shutdown_if_exhausted : M unit := fun s =>
  match pending s with
  | [] => for_each (nodes s) node_shutdown s
  | _ :: _ => Return tt s
  end.

(** [schedule], lines 64-112. *)
Definition schedule : M unit := fun s =>
  if negb (collection_is_completed s) then Raise AssertionError s
  else
    match collection s with
    | Some _ =>
        for_each (nodes s) (fun n => check_schedule n duration_default) s
    | None =>
        if negb (_check_nodes_have_same_collection s) then log MsgAbort s
        else
          match Dict.values (node2collection s) with
          | [] => Raise IndexError s
          | c :: _ =>
              let s1 := set_pending (seq 0 (length c)) (set_collection (Some c) s) in
              match c with
              | [] => Return tt s1
              | _ :: _ =>
                  (distribute (initial_batch s1) (cycle (nodes s1)) ;;;
                   shutdown_if_exhausted ;;;
                   queue_log "schedule"%string) s1
              end
          end
    end.

(** ** The remaining operations of the base scheduler *)

(** Modelled from the spec: [add_node] of the base scheduler; a node that
    joins gets an empty queue. *)
Definition add_node (n : node) : M unit := fun s =>
  match Dict.get n (node2pending s) with
  | Some _ => Raise AssertionError s
  | None => Return tt (set_node2pending (Dict.set n [] (node2pending s)) s)
  end.

(** Modelled from the spec: [add_node_collection] of the base scheduler; the
    collection registry records the sequence of identifiers a known node
    reports. *)
Definition add_node_collection (n : node) (c : list string) : M unit := fun s =>
  match Dict.get n (node2pending s) with
  | None => Raise AssertionError s
  | Some _ => Return tt (set_node2collection (Dict.set n c (node2collection s)) s)
  end.

(** [list.remove(x)]: drops the first occurrence, [None] when there is none. *)
Fixpoint list_remove (x : nat) (l : list nat) : option (list nat) :=
  match l with
  | [] => None
  | y :: l' =>
      if decide (y = x) then Some l'
      else option_map (cons y) (list_remove x l')
  end.

(** Modelled from the spec: [mark_test_complete] of the base scheduler, the
    item-completed event; completion removes the index from the queue of the
    node (it does not go back to Pending) and the node is re-evaluated. *)
Definition mark_test_complete (n : node) (item_index : nat) (d : duration) : M unit :=
  fun s =>
    match Dict.get n (node2pending s) with
    | None => Raise KeyError s
    | Some q =>
        match list_remove item_index q with
        | None => Raise ValueError s
        | Some q' =>
            check_schedule n d (set_node2pending (Dict.set n q' (node2pending s)) s)
        end
    end.

(** ** Reachable states

    The scheduler is driven by the operations below.  A trace carries, as a
    ghost, the indices whose completion was accepted ([list.remove]
    succeeded), in the order in which that happened. *)

Inductive op :=
| AddNode (n : node)
| AddNodeCollection (n : node) (c : list string)
| Schedule
| CheckSchedule (n : node) (d : duration)
| MarkTestComplete (n : node) (item_index : nat) (d : duration).

Definition run (o : op) : M unit :=
  match o with
  | AddNode n => add_node n
  | AddNodeCollection n c => add_node_collection n c
  | Schedule => schedule
  | CheckSchedule n d => check_schedule n d
  | MarkTestComplete n i d => mark_test_complete n i d
  end.

Definition completed_by (o : op) (s : scheduler) : list nat :=
  match o with
  | MarkTestComplete n i _ =>
      match Dict.get n (node2pending s) with
      | Some q =>
          match list_remove i q with
          | Some _ => [i]
          | None => []
          end
      | None => []
      end
  | _ => []
  end.

Inductive reachable : list nat → scheduler → Prop :=
| reachable_init objs : reachable [] (init objs)
| reachable_step fin s o :
    reachable fin s →
    reachable (fin ++ completed_by o s) (state_of (run o s)).

(** The size of the authoritative collection (0 while there is none), the
    indices sitting in node queues, and the queue of one node. *)
Definition N (s : scheduler) : nat :=
  match collection s with
  | Some c => length c
  | None => 0
  end.

Definition assigned (s : scheduler) : list nat :=
  concat (Dict.values (node2pending s)).

Definition queue (n : node) (s : scheduler) : list nat :=
  default [] (Dict.get n (node2pending s)).

Definition queue_total (s : scheduler) : nat :=
  sum_list (map length (Dict.values (node2pending s))).

(** The invocations the claims speak about. *)
Definition is_scheduling_op (o : op) : bool :=
  match o with
  | Schedule | CheckSchedule _ _ => true
  | _ => false
  end.

(** [preserves P m]: whatever [m] does, returning or raising, it leaves a
    state satisfying [P] when started in one. *)
Definition preserves (P : scheduler → Prop) (m : M unit) : Prop :=
  ∀ s, P s → P (state_of (m s)).

(** Running a sequence of operations, collecting the completed indices. *)
Fixpoint run_trace (os : list op) (fin : list nat) (s : scheduler)
  : list nat * scheduler :=
  match os with
  | [] => (fin, s)
  | o :: os' => run_trace os' (fin ++ completed_by o s) (state_of (run o s))
  end.

(** Two nodes report the same three items; the items are distributed and
    node 0 reports item 0 as done. *)
Definition example_trace : list op :=
  let c := ["test_a"; "test_b"; "test_c"]%string in
  [AddNode 0; AddNode 1; AddNodeCollection 0 c; AddNodeCollection 1 c;
   Schedule; MarkTestComplete 0 0 duration_0_2].

Definition example_state : scheduler := (run_trace example_trace [] (init ∅)).2.

(** Concrete states used to exercise the theorems below. *)
Definition ten_items : list string :=
  ["t0"; "t1"; "t2"; "t3"; "t4"; "t5"; "t6"; "t7"; "t8"; "t9"]%string.

(** Nodes 0 and 1 have joined and reported the same ten items. *)
Definition two_node_state : scheduler :=
  (run_trace [AddNode 0; AddNode 1; AddNodeCollection 0 ten_items;
              AddNodeCollection 1 ten_items] [] (init ∅)).2.

(** ... and the initial distribution has happened. *)
Definition distributed_state : scheduler := state_of (schedule two_node_state).

(** ... and node 2 has joined late. *)
Definition late_join_state : scheduler := state_of (add_node 2 distributed_state).

(** Node 0 has joined; nothing has been collected yet. *)
Definition one_node_state : scheduler := state_of (add_node 0 (init ∅)).

(** Nodes 0 and 1 disagree about what they collected. *)
Definition mismatch_state : scheduler :=
  (run_trace [AddNode 0; AddNode 1; AddNodeCollection 0 ["t0"; "t1"]%string;
              AddNodeCollection 1 ["t0"; "t2"]%string] [] (init ∅)).2.

(** Nodes 0 and 1 both collected nothing. *)
Definition empty_collection_state : scheduler :=
  (run_trace [AddNode 0; AddNode 1; AddNodeCollection 0 [];
              AddNodeCollection 1 []] [] (init ∅)).2.

(** A configuration [__init__] never produces: minimum 3, maximum 2. *)
Definition reconfigured_state : scheduler :=
  Scheduler (node2collection distributed_state) (node2pending distributed_state)
            (pending distributed_state) (collection distributed_state)
            3 2 (_log_prefix distributed_state) (node_objs distributed_state)
            (out distributed_state).

(** The error kind the source reserves for broken invariants is the one its
    [assert] statements raise; failed lookups raise the generic errors of
    the containers. *)
Definition invariant_violation (e : exn) : bool :=
  match e with
  | AssertionError => true
  | _ => false
  end.

Definition signals_invariant_violation {A} (r : outcome A) : bool :=
  match r with
  | Raise e _ => invariant_violation e
  | Return _ _ => false
  end.

(** Both queue-size bounds are the constants of [__init__]. *)
Definition sizes_fixed (s : scheduler) : Prop :=
  _min_queue_size s = 2 ∧ _max_queue_size s = 2.

(** No queue is longer than the configured maximum. *)
Definition queues_bounded (s : scheduler) : Prop :=
  ∀ n, length (queue n s) ≤ _max_queue_size s.

(** Pending, the node queues and the completed indices together hold every
    index of [0, N) exactly once. *)
Definition partitioned (fin : list nat) (s : scheduler) : Prop :=
  pending s ++ assigned s ++ fin ≡ₚ seq 0 (N s).

Definition wf (fin : list nat) (s : scheduler) : Prop :=
  NoDup (nodes s) ∧ sizes_fixed s ∧ queues_bounded s ∧ partitioned fin s.

(** No node has received a shutdown signal between [s] and [s']. *)
Definition signals_unchanged (s s' : scheduler) : Prop :=
  ∀ m, shutting_down (node_of m s') = shutting_down (node_of m s) ∧
       shutdown_calls (node_of m s') = shutdown_calls (node_of m s).

(** Nodes 0 and 1 have joined and reported the same three items. *)
Definition three_item_state : scheduler :=
  (run_trace [AddNode 0; AddNode 1;
              AddNodeCollection 0 ["test_a"; "test_b"; "test_c"]%string;
              AddNodeCollection 1 ["test_a"; "test_b"; "test_c"]%string]
             [] (init ∅)).2.

(** What [schedule] and [check_schedule] leave in place: the set of nodes,
    the collection registry, the bounds and the prefix; diagnostics are only
    ever appended. *)
Definition configuration_kept (s s' : scheduler) : Prop :=
  nodes s' = nodes s ∧
  node2collection s' = node2collection s ∧
  _min_queue_size s' = _min_queue_size s ∧
  _max_queue_size s' = _max_queue_size s ∧
  _log_prefix s' = _log_prefix s ∧
  ∃ l, out s' = out s ++ l.

(** Pending is the tail end of the index range: what has not been handed
    out yet, in collection order. *)
Definition pending_is_tail (s : scheduler) : Prop :=
  length (pending s) ≤ N s ∧
  pending s = seq (N s - length (pending s)) (length (pending s)).

(** After the initial distribution node 2 joins and reports its items. *)
Definition late_reported_trace : list op :=
  [AddNode 0; AddNode 1; AddNodeCollection 0 ten_items;
   AddNodeCollection 1 ten_items; Schedule; AddNode 2;
   AddNodeCollection 2 ten_items].

Definition late_reported_state : scheduler :=
  (run_trace late_reported_trace [] (init ∅)).2.

(** Everything that was ever dispatched to a node, and to all known nodes. *)
Definition dispatched_to (n : node) (s : scheduler) : list nat :=
  concat (dispatched (node_of n s)).

Definition all_dispatched (s : scheduler) : list nat :=
  concat (map (fun n => dispatched_to n s) (nodes s)).

(** The dispatch records agree with the bookkeeping: what was dispatched
    is what sits in the queues or was completed, and a node that is not
    known was never sent anything. *)
Definition dispatch_consistent (fin : list nat) (s : scheduler) : Prop :=
  NoDup (nodes s) ∧
  (∀ n, n ∉ nodes s → dispatched (node_of n s) = []) ∧
  all_dispatched s ≡ₚ assigned s ++ fin.

(** Three items were handed to nodes 0 and 1; node 2 joins and reports
    when nothing is left. *)
Definition late_idle_trace : list op :=
  let c := ["test_a"; "test_b"; "test_c"]%string in
  [AddNode 0; AddNode 1; AddNodeCollection 0 c; AddNodeCollection 1 c;
   Schedule; AddNode 2; AddNodeCollection 2 c].

Definition late_idle_state : scheduler :=
  (run_trace late_idle_trace [] (init ∅)).2.

(** Node 0 joins and is checked before anything has been collected, which
    already puts it into the draining state; then it reports one item. *)
Definition drained_early_trace : list op :=
  [AddNode 0; CheckSchedule 0 duration_default;
   AddNodeCollection 0 ["test_a"]%string].

Definition drained_early_state : scheduler :=
  (run_trace drained_early_trace [] (init ∅)).2.

(** Steps that only write to the node store or to the diagnostics leave
    every property of the scheduling fields as it is. *)
Ltac frame := let s := fresh "s" in let Hs := fresh "Hs" in
  intros s Hs; exact Hs.

(** ** Dictionaries *)

Section DictFacts.
Context {V : Type}.
Implicit Types (d : list (node * V)) (k : node) (v : V).

Lemma get_None_keys d k : Dict.get k d = None ↔ k ∉ Dict.keys d.
Proof.
  induction d as [|[k' v'] d IH]; simpl.
  - split; [intros _; apply not_elem_of_nil | done].
  - rewrite not_elem_of_cons. case_decide; subst.
    + split; [done | intros [? _]; done].
    + rewrite IH. split; [intros ?; split; [congruence | done] | tauto].
Qed.

Lemma keys_set_known d k v :
  is_Some (Dict.get k d) → Dict.keys (Dict.set k v d) = Dict.keys d.
Proof.
  induction d as [|[k' v'] d IH]; simpl.
  - intros [? [=]].
  - case_decide; subst; simpl; [done|]. intros H'. f_equal. auto.
Qed.

Lemma keys_set_new d k v :
  Dict.get k d = None → Dict.keys (Dict.set k v d) = Dict.keys d ++ [k].
Proof.
  induction d as [|[k' v'] d IH]; simpl; [done|].
  case_decide; subst; simpl; [done|]. intros H'. f_equal. auto.
Qed.

Lemma values_set_new d k v :
  Dict.get k d = None → Dict.values (Dict.set k v d) = Dict.values d ++ [v].
Proof.
  induction d as [|[k' v'] d IH]; simpl; [done|].
  case_decide; subst; simpl; [done|]. intros H'. f_equal. auto.
Qed.

(** Replacing the value of a known key touches one position of the
    value list. *)
Lemma values_set_known d k v0 :
  Dict.get k d = Some v0 →
  ∃ l1 l2, Dict.values d = l1 ++ v0 :: l2 ∧
           ∀ v, Dict.values (Dict.set k v d) = l1 ++ v :: l2.
Proof.
  induction d as [|[k' v'] d IH]; simpl; [done|].
  case_decide; subst.
  - intros [= ->]. exists [], (Dict.values d). done.
  - intros H'. destruct (IH H') as (l1 & l2 & E1 & E2).
    exists (v' :: l1), l2. split; [by rewrite E1|].
    intros v. simpl. by rewrite E2.
Qed.

Lemma get_set_eq d k v : Dict.get k (Dict.set k v d) = Some v.
Proof.
  induction d as [|[k' v'] d IH]; simpl.
  - by rewrite decide_True.
  - case_decide; subst; simpl.
    + by rewrite decide_True.
    + by rewrite decide_False.
Qed.

Lemma get_set_ne d k k' v : k ≠ k' → Dict.get k' (Dict.set k v d) = Dict.get k' d.
Proof.
  intros Hne. induction d as [|[k0 v0] d IH]; simpl.
  - by rewrite decide_False.
  - case_decide; subst; simpl.
    + by rewrite !decide_False.
    + case_decide; [done | apply IH].
Qed.
End DictFacts.

(** ** The monad *)

Lemma state_of_bind (m k : M unit) s :
  state_of ((m ;;; k) s) =
    if returned (m s) then state_of (k (state_of (m s))) else state_of (m s).
Proof. unfold bind. by destruct (m s). Qed.

Lemma preserves_bind P (m k : M unit) :
  preserves P m → preserves P k → preserves P (m ;;; k).
Proof.
  intros Hm Hk s Hs. rewrite state_of_bind.
  destruct (returned (m s)); auto.
Qed.

Lemma preserves_ret P : preserves P (ret tt).
Proof. by intros s Hs. Qed.

Lemma preserves_raise P e : preserves P (raise e).
Proof. by intros s Hs. Qed.

Lemma preserves_for_each {A} P (xs : list A) (body : A → M unit) :
  (∀ x, x ∈ xs → preserves P (body x)) → preserves P (for_each xs body).
Proof.
  induction xs as [|x xs IH]; intros Hb; simpl.
  - apply preserves_ret.
  - apply preserves_bind.
    + apply Hb. left.
    + apply IH. intros y Hy. apply Hb. by right.
Qed.

(** ** The primitive steps *)

Lemma send_tests_cases n num s :
  state_of (_send_tests n num s) = s ∨
  ∃ q, Dict.get n (node2pending s) = Some q ∧
       take (Z.to_nat num) (pending s) ≠ [] ∧
       _send_tests n num s =
         node_dispatch_items n (take (Z.to_nat num) (pending s))
           (set_node2pending
              (Dict.set n (q ++ take (Z.to_nat num) (pending s)) (node2pending s))
              (set_pending (drop (Z.to_nat num) (pending s)) s)).
Proof.
  unfold _send_tests.
  destruct (take (Z.to_nat num) (pending s)) as [|x t] eqn:Et; [by left|].
  destruct (Dict.get n (node2pending s)) as [q|] eqn:Eq; [|by left].
  right. exists q. done.
Qed.

Lemma send_tests_nodes n num : ∀ l, preserves (fun s => nodes s = l) (_send_tests n num).
Proof.
  intros l s Hs. destruct (send_tests_cases n num s) as [->|(q & Hq & _ & ->)]; [done|].
  simpl. unfold nodes in *. simpl. rewrite keys_set_known; eauto.
Qed.

Lemma send_tests_sizes n num : preserves sizes_fixed (_send_tests n num).
Proof.
  intros s Hs. by destruct (send_tests_cases n num s) as [->|(q & Hq & _ & ->)].
Qed.

Lemma send_tests_collection n num c :
  preserves (fun s => collection s = c) (_send_tests n num).
Proof.
  intros s Hs. by destruct (send_tests_cases n num s) as [->|(q & Hq & _ & ->)].
Qed.

Lemma send_tests_perm n num L :
  preserves (fun s => pending s ++ assigned s ≡ₚ L) (_send_tests n num).
Proof.
  intros s Hs. destruct (send_tests_cases n num s) as [->|(q & Hq & _ & ->)]; [done|].
  simpl. rewrite <- Hs. unfold assigned. simpl.
  destruct (values_set_known _ _ _ Hq) as (l1 & l2 & E1 & E2).
  rewrite E1, E2, !concat_app. simpl.
  pose proof (take_drop (Z.to_nat num) (pending s)) as Etd. revert Etd.
  generalize (take (Z.to_nat num) (pending s)) (drop (Z.to_nat num) (pending s)).
  intros t d <-. solve_Permutation.
Qed.

Lemma send_tests_queue_other n num m s :
  m ≠ n → queue m (state_of (_send_tests n num s)) = queue m s.
Proof.
  intros Hne. destruct (send_tests_cases n num s) as [->|(q & Hq & _ & ->)]; [done|].
  unfold queue. simpl. by rewrite get_set_ne.
Qed.

Lemma send_tests_queue_self n num s :
  length (queue n (state_of (_send_tests n num s))) ≤ length (queue n s) + Z.to_nat num.
Proof.
  destruct (send_tests_cases n num s) as [->|(q & Hq & _ & ->)]; [lia|].
  unfold queue. simpl. rewrite get_set_eq, Hq. simpl.
  rewrite length_app, length_take. lia.
Qed.


(** ** [check_schedule] *)

(** What [check_schedule] preserves is decided by the one call of
    [_send_tests] it can make. *)
Lemma check_schedule_preserves (P : scheduler → Prop) n d :
  (∀ s q, P s → Dict.get n (node2pending s) = Some q →
          length q < _min_queue_size s →
          P (state_of (_send_tests n
               (Z.of_nat (_max_queue_size s) - Z.of_nat (length q)) s))) →
  preserves P (node_shutdown n) →
  preserves P check_schedule_log →
  preserves P (check_schedule n d).
Proof.
  intros Hsend Hdown Hlog s Hs. unfold check_schedule.
  destruct (shutting_down (node_of n s)); [done|].
  destruct (pending s) as [|x p] eqn:Ep.
  { by apply preserves_bind. }
  destruct (Dict.get n (node2pending s)) as [q|] eqn:Eq; [|done].
  case_decide as Hlt; [|by apply Hlog].
  destruct (_ && _); [done|].
  rewrite state_of_bind. destruct (returned _); eauto.
Qed.

Lemma check_schedule_nodes n d l :
  preserves (fun s => nodes s = l) (check_schedule n d).
Proof.
  apply check_schedule_preserves; [|frame|frame].
  intros s q Hs _ _. by apply send_tests_nodes.
Qed.

Lemma check_schedule_sizes n d : preserves sizes_fixed (check_schedule n d).
Proof.
  apply check_schedule_preserves; [|frame|frame].
  intros s q Hs _ _. by apply send_tests_sizes.
Qed.

Lemma check_schedule_collection n d c :
  preserves (fun s => collection s = c) (check_schedule n d).
Proof.
  apply check_schedule_preserves; [|frame|frame].
  intros s q Hs _ _. by apply send_tests_collection.
Qed.

Lemma check_schedule_perm n d L :
  preserves (fun s => pending s ++ assigned s ≡ₚ L) (check_schedule n d).
Proof.
  apply check_schedule_preserves; [|frame|frame].
  intros s q Hs _ _. by apply send_tests_perm.
Qed.

Lemma check_schedule_bounded n d :
  preserves (fun s => sizes_fixed s ∧ queues_bounded s) (check_schedule n d).
Proof.
  apply check_schedule_preserves; [|frame|frame].
  intros s q [Hsz Hb] Hq Hlt. split; [by apply send_tests_sizes|].
  intros m. pose proof (send_tests_sizes n
    (Z.of_nat (_max_queue_size s) - Z.of_nat (length q)) s Hsz) as [_ ->].
  destruct Hsz as [Hmin Hmax]. destruct (decide (m = n)) as [->|Hne].
  - etrans; [apply send_tests_queue_self|].
    unfold queue. rewrite Hq. simpl. lia.
  - rewrite send_tests_queue_other by done. rewrite <- Hmax. apply Hb.
Qed.

(** ** The initial distribution *)

Lemma distribute_preserves P count :
  (∀ n, preserves P (_send_tests n 1)) →
  ∀ it, preserves P (distribute count it).
Proof.
  intros Hsend. induction count as [|k IH]; intros it; simpl.
  - apply preserves_ret.
  - destruct (next it) as [[n it']|]; [|apply preserves_raise].
    apply preserves_bind; auto.
Qed.

Lemma distribute_upcoming r : ∀ c sv s,
  distribute (length r + c) (Cycle r sv) s =
    (for_each r (fun n => _send_tests n 1) ;;; distribute c (Cycle [] sv)) s.
Proof.
  induction r as [|x r IH]; intros c sv s; [done|].
  simpl. unfold bind at 1 2 3. destruct (_send_tests x 1 s) as [[] s1|e s1]; [|done].
  rewrite IH. done.
Qed.

Lemma distribute_wrap c sv s :
  distribute c (Cycle [] sv) s = distribute c (cycle sv) s.
Proof. destruct c, sv; done. Qed.

(** One pass over distinct nodes adds at most one index to each queue. *)
Lemma for_each_send_bound ns : NoDup ns → ∀ s m,
  length (queue m (state_of (for_each ns (fun n => _send_tests n 1) s)))
    ≤ length (queue m s) + (if bool_decide (m ∈ ns) then 1 else 0).
Proof.
  induction 1 as [|x ns Hx Hnd IH]; intros s m; simpl; [lia|].
  rewrite state_of_bind.
  pose proof (send_tests_queue_self x 1 s) as Hself.
  destruct (decide (m = x)) as [->|Hne].
  - rewrite bool_decide_eq_true_2 by left.
    destruct (returned _); [|simpl in *; lia].
    etrans; [apply IH|]. rewrite bool_decide_eq_false_2 by done. simpl in *. lia.
  - pose proof (send_tests_queue_other x 1 m s Hne) as Hother.
    destruct (returned _); [|rewrite Hother; lia].
    etrans; [apply IH|]. rewrite Hother.
    apply Nat.add_le_mono_l. repeat case_bool_decide; try lia.
    exfalso. set_solver.
Qed.

(** [k] full rounds over distinct nodes add at most [k] to each queue. *)
Lemma distribute_rounds ns k : NoDup ns → ∀ s m,
  length (queue m (state_of (distribute (k * length ns) (cycle ns) s)))
    ≤ length (queue m s) + k.
Proof.
  intros Hnd. induction k as [|k IH]; intros s m; simpl; [lia|].
  unfold cycle. rewrite distribute_upcoming, state_of_bind.
  pose proof (for_each_send_bound ns Hnd s m) as Hpass.
  assert ((if bool_decide (m ∈ ns) then 1 else 0) ≤ 1) by (case_bool_decide; lia).
  destruct (returned _); [|lia].
  rewrite distribute_wrap. etrans; [apply IH|]. lia.
Qed.

Lemma shutdown_if_exhausted_preserves P :
  (∀ n, preserves P (node_shutdown n)) → preserves P shutdown_if_exhausted.
Proof.
  intros Hdown s Hs. unfold shutdown_if_exhausted.
  destruct (pending s); [|done].
  by apply preserves_for_each.
Qed.

Lemma initial_distribution_preserves P count it meth :
  (∀ n, preserves P (_send_tests n 1)) →
  (∀ n, preserves P (node_shutdown n)) →
  preserves P (queue_log meth) →
  preserves P (distribute count it ;;; shutdown_if_exhausted ;;; queue_log meth).
Proof.
  intros Hsend Hdown Hlog.
  apply preserves_bind; [by apply distribute_preserves|].
  apply preserves_bind; [by apply shutdown_if_exhausted_preserves | done].
Qed.

(** ** Well-formedness of reachable states *)

Lemma length_assigned s : length (assigned s) = queue_total s.
Proof.
  unfold assigned, queue_total.
  induction (Dict.values (node2pending s)) as [|q l IH]; [done|].
  simpl. rewrite length_app, IH. done.
Qed.

Lemma queue_subseteq_assigned n s i : i ∈ queue n s → i ∈ assigned s.
Proof.
  unfold queue, assigned.
  destruct (Dict.get n (node2pending s)) as [q|] eqn:Eq; simpl; [|by intros ?%elem_of_nil].
  destruct (values_set_known _ _ _ Eq) as (l1 & l2 & -> & _).
  rewrite concat_app. simpl. set_solver.
Qed.

Lemma assigned_elem_queue s i :
  NoDup (nodes s) → i ∈ assigned s → ∃ n, n ∈ nodes s ∧ i ∈ queue n s.
Proof.
  unfold assigned, queue, nodes.
  induction (node2pending s) as [|[k q] d IH]; simpl; [by intros _ ?%elem_of_nil|].
  rewrite NoDup_cons, elem_of_app. intros [Hk Hnd] [Hi|Hi].
  - exists k. rewrite decide_True by done. split; [left | done].
  - destruct (IH Hnd Hi) as (n & Hn & Hin). exists n. split; [by right|].
    rewrite decide_False; [done|]. intros ->. done.
Qed.

(** With distinct keys and no index assigned twice, an index sits in the
    queue of at most one node. *)
Lemma queue_owner_unique s i n m :
  NoDup (assigned s) → i ∈ queue n s → i ∈ queue m s → n = m.
Proof.
  unfold assigned, queue.
  induction (node2pending s) as [|[k q] d IH]; simpl; [by intros _ ?%elem_of_nil|].
  rewrite NoDup_app. intros (Hq & Hdisj & Hd).
  assert (∀ k', i ∈ default [] (Dict.get k' d) → i ∈ concat (Dict.values d)) as Hsub.
  { intros k'. destruct (Dict.get k' d) as [q'|] eqn:Eq; simpl; [|by intros ?%elem_of_nil].
    destruct (values_set_known _ _ _ Eq) as (l1 & l2 & -> & _).
    rewrite concat_app. simpl. set_solver. }
  repeat case_decide; subst; simpl; try done.
  - intros Hi Hm. destruct (Hdisj i Hi). by apply (Hsub m).
  - intros Hn Hi. destruct (Hdisj i Hi). by apply (Hsub n).
  - by apply IH.
Qed.

Lemma list_remove_perm i q q' : list_remove i q = Some q' → q ≡ₚ i :: q'.
Proof.
  revert q'. induction q as [|y q IH]; intros q'; simpl; [done|].
  case_decide; subst.
  - by intros [= ->].
  - destruct (list_remove i q) as [r|]; simpl; [|done].
    intros [= <-]. rewrite (IH r eq_refl). apply Permutation_swap.
Qed.

Lemma partitioned_no_collection fin s :
  collection s = None → partitioned fin s →
  pending s = [] ∧ assigned s = [] ∧ fin = [].
Proof.
  unfold partitioned, N. intros -> Hp. simpl in Hp.
  apply Permutation_nil_r in Hp.
  apply app_eq_nil in Hp as [? [? ?]%app_eq_nil]. done.
Qed.

Lemma assigned_nil_queue s n : assigned s = [] → queue n s = [].
Proof.
  intros Ha. destruct (queue n s) as [|i q] eqn:Eq; [done|].
  assert (i ∈ assigned s) as Hi by (apply (queue_subseteq_assigned n); rewrite Eq; left).
  rewrite Ha in Hi. by apply elem_of_nil in Hi.
Qed.

(** A state that keeps the nodes, the bounds, the collection and the
    multiset of unfinished indices of a well-formed state is well formed. *)
Lemma wf_transfer fin s s' :
  wf fin s → nodes s' = nodes s → sizes_fixed s' → queues_bounded s' →
  collection s' = collection s →
  pending s' ++ assigned s' ≡ₚ pending s ++ assigned s →
  wf fin s'.
Proof.
  intros (Hnd & Hsz & Hb & Hp) Hn Hsz' Hb' Hc Hperm.
  repeat split; try done; try apply Hsz'.
  - by rewrite Hn.
  - unfold partitioned, N in *. rewrite Hc, app_assoc, Hperm, <- app_assoc. done.
Qed.

Lemma check_schedule_wf fin n d : preserves (wf fin) (check_schedule n d).
Proof.
  intros s Hs. pose proof Hs as (Hnd & Hsz & Hb & Hp).
  apply (wf_transfer fin s); try done.
  - by apply check_schedule_nodes.
  - by apply check_schedule_sizes.
  - by apply check_schedule_bounded.
  - by apply check_schedule_collection.
  - by apply check_schedule_perm.
Qed.

Lemma schedule_wf fin : preserves (wf fin) schedule.
Proof.
  intros s Hs. pose proof Hs as (Hnd & Hsz & Hb & Hp). unfold schedule.
  destruct (negb (collection_is_completed s)); [done|].
  destruct (collection s) as [c0|] eqn:Ec.
  { apply preserves_for_each; [|done]. intros n _. apply check_schedule_wf. }
  destruct (negb (_check_nodes_have_same_collection s)); [exact Hs|].
  destruct (Dict.values (node2collection s)) as [|c _]; [done|].
  destruct (partitioned_no_collection fin s Ec Hp) as (Epend & Eass & ->).
  set (s1 := set_pending (seq 0 (length c)) (set_collection (Some c) s)).
  assert (wf [] s1) as Hs1.
  { repeat split; try done; try apply Hsz.
    unfold partitioned, N, s1, assigned in *. simpl. rewrite Eass. simpl.
    by rewrite app_nil_r. }
  destruct c as [|t c]; [done|].
  set (c1 := t :: c) in *.
  set (tail := shutdown_if_exhausted ;;; queue_log "schedule").
  apply (wf_transfer [] s1); try done.
  - apply (initial_distribution_preserves (fun s' => nodes s' = nodes s1)); try done.
    + intros n. apply send_tests_nodes.
    + intros n. frame.
    + frame.
  - apply initial_distribution_preserves; try done.
    + intros n. apply send_tests_sizes.
    + intros n. frame.
    + frame.
  - assert (_max_queue_size (state_of
        ((distribute (initial_batch s1) (cycle (nodes s1)) ;;; tail) s1)) = 2) as Hmax.
    { apply (initial_distribution_preserves sizes_fixed); try done.
      - intros n. apply send_tests_sizes.
      - intros n. frame.
      - frame. }
    intros m. fold tail. rewrite Hmax.
    assert (∀ s', length (queue m s') ≤ 2 → length (queue m (state_of (tail s'))) ≤ 2)
      as Htail.
    { intros s'. apply (preserves_bind (fun s' => length (queue m s') ≤ 2)).
      - apply shutdown_if_exhausted_preserves. intros n. frame.
      - frame. }
    assert (length (queue m (state_of
        (distribute (initial_batch s1) (cycle (nodes s1)) s1))) ≤ 2) as Hdist.
    { unfold initial_batch. destruct Hsz as [_ Hmax1]. change (_max_queue_size s1)
        with (_max_queue_size s). rewrite Hmax1.
      etrans; [apply distribute_rounds; exact Hnd|].
      change (queue m s1) with (queue m s). rewrite assigned_nil_queue by done.
      simpl. lia. }
    rewrite state_of_bind. destruct (returned _); auto.
  - apply (initial_distribution_preserves (fun s' => collection s' = collection s1));
      try done.
    + intros n. apply send_tests_collection.
    + intros n. frame.
    + frame.
  - apply (initial_distribution_preserves
             (fun s' => pending s' ++ assigned s' ≡ₚ pending s1 ++ assigned s1));
      try done.
    + intros n. apply send_tests_perm.
    + intros n. frame.
    + frame.
Qed.

Lemma add_node_wf fin n : preserves (wf fin) (add_node n).
Proof.
  intros s Hs. pose proof Hs as (Hnd & Hsz & Hb & Hp). unfold add_node.
  destruct (Dict.get n (node2pending s)) eqn:En; [done|].
  simpl. repeat split; try apply Hsz.
  - unfold nodes. simpl. rewrite keys_set_new by done.
    apply NoDup_app. repeat split; [done| |apply NoDup_singleton].
    intros x Hx ->%list_elem_of_singleton. by apply get_None_keys in En.
  - intros m. unfold queue. simpl. destruct (decide (n = m)) as [->|Hne].
    + rewrite get_set_eq. simpl. lia.
    + rewrite get_set_ne by done. apply Hb.
  - unfold partitioned, assigned, N in *. simpl.
    rewrite values_set_new by done. rewrite concat_app. simpl.
    by rewrite app_nil_r.
Qed.

Lemma add_node_collection_wf fin n c : preserves (wf fin) (add_node_collection n c).
Proof.
  intros s Hs. unfold add_node_collection.
  destruct (Dict.get n (node2pending s)); [exact Hs | done].
Qed.

Lemma mark_test_complete_wf fin n i d s :
  wf fin s →
  wf (fin ++ completed_by (MarkTestComplete n i d) s)
     (state_of (mark_test_complete n i d s)).
Proof.
  intros Hs. pose proof Hs as (Hnd & Hsz & Hb & Hp).
  unfold mark_test_complete, completed_by.
  destruct (Dict.get n (node2pending s)) as [q|] eqn:Eq; [|by rewrite app_nil_r].
  destruct (list_remove i q) as [q'|] eqn:Er; [|by rewrite app_nil_r].
  apply check_schedule_wf.
  pose proof (list_remove_perm _ _ _ Er) as Hq.
  repeat split; try apply Hsz.
  - unfold nodes. simpl. rewrite keys_set_known; eauto.
  - intros m. unfold queue. simpl. destruct (decide (n = m)) as [->|Hne].
    + rewrite get_set_eq. simpl. specialize (Hb m). unfold queue in Hb.
      rewrite Eq in Hb. simpl in Hb. apply Permutation_length in Hq.
      simpl in Hq. lia.
    + rewrite get_set_ne by done. apply Hb.
  - unfold partitioned, assigned, N in *. simpl. rewrite <- Hp.
    destruct (values_set_known _ _ _ Eq) as (l1 & l2 & E1 & E2).
    rewrite E1, E2, !concat_app. simpl. rewrite Hq. solve_Permutation.
Qed.

Lemma init_wf objs : wf [] (init objs).
Proof.
  repeat split.
  - apply NoDup_nil_2.
  - intros n. unfold queue. simpl. lia.
  - by unfold partitioned.
Qed.

Lemma reachable_wf fin s : reachable fin s → wf fin s.
Proof.
  induction 1 as [objs|fin s o _ IH]; [apply init_wf|].
  destruct o as [n|n c| |n d|n i d]; simpl.
  - rewrite app_nil_r. by apply add_node_wf.
  - rewrite app_nil_r. by apply add_node_collection_wf.
  - rewrite app_nil_r. by apply schedule_wf.
  - rewrite app_nil_r. by apply check_schedule_wf.
  - by apply mark_test_complete_wf.
Qed.

Lemma reachable_trace os : ∀ fin s,
  reachable fin s → reachable (run_trace os fin s).1 (run_trace os fin s).2.
Proof.
  induction os as [|o os IH]; intros fin s Hr; simpl; [done|].
  apply IH. by constructor.
Qed.

Lemma example_state_reachable : reachable [0] example_state.
Proof. exact (reachable_trace example_trace [] (init ∅) (reachable_init ∅)). Qed.

Lemma reachable_scheduling_op fin s o :
  reachable fin s → is_scheduling_op o = true →
  reachable fin (state_of (run o s)).
Proof.
  intros Hr Ho. pose proof (reachable_step fin s o Hr) as Hr'.
  destruct o; try done; simpl in Hr'; by rewrite app_nil_r in Hr'.
Qed.

(** What well-formedness says about one index. *)
Lemma wf_exactly_one fin s i :
  wf fin s → i < N s →
  (i ∈ pending s ∧ (i ∉ assigned s) ∧ (i ∉ fin)) ∨
  ((i ∉ pending s) ∧ (i ∉ fin) ∧
     ∃ n, n ∈ nodes s ∧ i ∈ queue n s ∧ ∀ m, i ∈ queue m s → m = n) ∨
  ((i ∉ pending s) ∧ (i ∉ assigned s) ∧ i ∈ fin).
Proof.
  intros (Hnd & _ & _ & Hp) Hi. unfold partitioned in Hp.
  assert (NoDup (pending s ++ assigned s ++ fin)) as Hall.
  { rewrite Hp. apply NoDup_seq. }
  assert (i ∈ pending s ++ assigned s ++ fin) as Hin.
  { rewrite Hp. apply elem_of_seq. lia. }
  apply NoDup_app in Hall as (_ & Hpa & Hall).
  apply NoDup_app in Hall as (Ha & Had & _).
  rewrite !elem_of_app in Hin. destruct Hin as [Hin|[Hin|Hin]].
  - left. specialize (Hpa i Hin). rewrite elem_of_app in Hpa. tauto.
  - right; left. repeat split.
    + intros Hpe. specialize (Hpa i Hpe). rewrite elem_of_app in Hpa. tauto.
    + by apply Had.
    + destruct (assigned_elem_queue s i Hnd Hin) as (n & Hn & Hq).
      exists n. repeat split; [done..|].
      intros m Hm. by apply (queue_owner_unique s i).
  - right; right. repeat split; [| |done].
    + intros Hpe. specialize (Hpa i Hpe). rewrite elem_of_app in Hpa. tauto.
    + intros Hae. by apply (Had i).
Qed.

(** ** The model at work *)

(** Three items on two nodes: the initial distribution empties Pending, the
    fourth send finds nothing to move, and every node gets the shutdown
    signal once. *)
Example schedule_three_items_two_nodes :
  let c := ["test_a"; "test_b"; "test_c"]%string in
  let s := (run_trace [AddNode 0; AddNode 1; AddNodeCollection 0 c;
                       AddNodeCollection 1 c; Schedule] [] (init ∅)).2 in
  node2pending s = [(0, [0; 2]); (1, [1])] ∧ pending s = [] ∧
  node_of 0 s = NodeObj true 1 [[0]; [2]] ∧ node_of 1 s = NodeObj true 1 [[1]].
Proof. repeat split. Qed.

(** A completion report frees a slot, which [check_schedule] refills from
    the front of Pending. *)
Example completion_tops_up :
  let s := state_of (mark_test_complete 0 0 duration_0_2 distributed_state) in
  node2pending s = [(0, [2; 4]); (1, [1; 3])] ∧ pending s = [5; 6; 7; 8; 9] ∧
  dispatched (node_of 0 s) = [[0]; [2]; [4]].
Proof. repeat split. Qed.

(** Completing an index the node does not hold is the [ValueError] of
    [list.remove]; the state is left alone. *)
Example completion_of_foreign_index :
  mark_test_complete 0 1 duration_default distributed_state
    = Raise ValueError distributed_state.
Proof. reflexivity. Qed.

(** ** Partition of the index range *)

(** C1.  In every reachable state, after any invocation of [schedule] or
    [check_schedule], every index below N is in exactly one of: Pending,
    the queue of exactly one known node, or the completed indices.  The
    three together are a rearrangement of [0, N), so their sizes add up to
    N, and no index occurs twice among Pending and the node queues. *)
Theorem partition_invariant fin s o :
  reachable fin s → is_scheduling_op o = true →
  let s' := state_of (run o s) in
  pending s' ++ assigned s' ++ fin ≡ₚ seq 0 (N s') ∧
  length (pending s') + queue_total s' + length fin = N s' ∧
  NoDup (pending s' ++ assigned s') ∧
  NoDup (nodes s') ∧
  ∀ i, i < N s' →
    (i ∈ pending s' ∧ (i ∉ assigned s') ∧ (i ∉ fin)) ∨
    ((i ∉ pending s') ∧ (i ∉ fin) ∧
       ∃ n, n ∈ nodes s' ∧ i ∈ queue n s' ∧ ∀ m, i ∈ queue m s' → m = n) ∨
    ((i ∉ pending s') ∧ (i ∉ assigned s') ∧ i ∈ fin).
Proof.
  intros Hr Ho s'.
  assert (wf fin s') as Hwf by (by apply reachable_wf, reachable_scheduling_op).
  pose proof Hwf as (Hnd & _ & _ & Hp). unfold partitioned in Hp.
  split; [done|]. split; [|split; [|split; [done|]]].
  - apply Permutation_length in Hp.
    rewrite !length_app, length_seq, length_assigned in Hp. lia.
  - assert (NoDup (pending s' ++ assigned s' ++ fin)) as Hall.
    { rewrite Hp. apply NoDup_seq. }
    rewrite app_assoc in Hall. by apply NoDup_app in Hall as (? & _).
  - intros i Hi. by apply wf_exactly_one.
Qed.

Lemma partition_invariant_witness :
  let s' := state_of (run (CheckSchedule 1 duration_default) example_state) in
  pending s' ++ assigned s' ++ [0] ≡ₚ seq 0 (N s') ∧
  length (pending s') + queue_total s' + length [0] = N s' ∧
  NoDup (pending s' ++ assigned s') ∧
  NoDup (nodes s') ∧
  ∀ i, i < N s' →
    (i ∈ pending s' ∧ (i ∉ assigned s') ∧ (i ∉ [0])) ∨
    ((i ∉ pending s') ∧ (i ∉ [0]) ∧
       ∃ n, n ∈ nodes s' ∧ i ∈ queue n s' ∧ ∀ m, i ∈ queue m s' → m = n) ∨
    ((i ∉ pending s') ∧ (i ∉ assigned s') ∧ i ∈ [0]).
Proof.
  apply (partition_invariant [0] example_state (CheckSchedule 1 duration_default)).
  - exact example_state_reachable.
  - reflexivity.
Defined.

(** ** The queue bound *)

Lemma check_schedule_growth n d s :
  length (queue n (state_of (check_schedule n d s)))
    ≤ length (queue n s) + (_max_queue_size s - length (queue n s)).
Proof.
  assert (∀ s', queue n (state_of (check_schedule_log s')) = queue n s') as Hlog by done.
  unfold check_schedule. destruct (shutting_down _); [simpl; lia|].
  destruct (pending s) as [|x p].
  { change (length (queue n s) ≤ length (queue n s)
              + (_max_queue_size s - length (queue n s))). lia. }
  destruct (Dict.get n (node2pending s)) as [q|] eqn:Eq; [|simpl; lia].
  case_decide; [|rewrite Hlog; lia].
  destruct (_ && _); [simpl; lia|].
  pose proof (send_tests_queue_self n
    (Z.of_nat (_max_queue_size s) - Z.of_nat (length q)) s) as Hself.
  assert (queue n s = q) as Hq by (unfold queue; by rewrite Eq).
  rewrite Hq in *.
  rewrite state_of_bind. destruct (returned _); [rewrite Hlog|]; lia.
Qed.

(** C2.  In every reachable state, after any invocation of [schedule] or
    [check_schedule], no node queue is longer than the maximum queue size,
    which is 2.  [check_schedule] lets the queue of its node grow by at most
    the room that is left in it, and the round-robin distribution of
    [initial_batch = _max_queue_size * K] indices gives each of the K nodes
    at most [_max_queue_size] of them. *)
Theorem queue_bound_invariant fin s n :
  reachable fin s →
  (∀ o, is_scheduling_op o = true →
     _max_queue_size (state_of (run o s)) = 2 ∧
     length (queue n (state_of (run o s))) ≤ _max_queue_size (state_of (run o s))) ∧
  (∀ d, length (queue n (state_of (check_schedule n d s)))
          ≤ length (queue n s) + (_max_queue_size s - length (queue n s))) ∧
  initial_batch s = _max_queue_size s * length (nodes s) ∧
  length (queue n (state_of (distribute (initial_batch s) (cycle (nodes s)) s)))
    ≤ length (queue n s) + _max_queue_size s.
Proof.
  intros Hr. split; [|split; [|split]].
  - intros o Ho.
    pose proof (reachable_wf _ _ (reachable_scheduling_op _ _ _ Hr Ho))
      as (_ & [_ Hmax] & Hb & _).
    split; [done | apply Hb].
  - intros d. apply check_schedule_growth.
  - done.
  - apply reachable_wf in Hr as (Hnd & _). by apply distribute_rounds.
Qed.

Lemma queue_bound_invariant_witness :
  (∀ o, is_scheduling_op o = true →
     _max_queue_size (state_of (run o example_state)) = 2 ∧
     length (queue 1 (state_of (run o example_state)))
       ≤ _max_queue_size (state_of (run o example_state))) ∧
  (∀ d, length (queue 1 (state_of (check_schedule 1 d example_state)))
          ≤ length (queue 1 example_state)
            + (_max_queue_size example_state - length (queue 1 example_state))) ∧
  initial_batch example_state
    = _max_queue_size example_state * length (nodes example_state) ∧
  length (queue 1 (state_of (distribute (initial_batch example_state)
                               (cycle (nodes example_state)) example_state)))
    ≤ length (queue 1 example_state) + _max_queue_size example_state.
Proof.
  apply (queue_bound_invariant [0] example_state 1).
  exact example_state_reachable.
Defined.

(** ** The worked example of the initial distribution *)

(** C3.  Ten items, two nodes, maximum queue size 2: the first [schedule]
    computes [initial_batch = 4] and hands out one index at a time, first
    node first, so that the first node holds [0; 2], the second [1; 3],
    Pending is [4..9], and neither node has received a shutdown signal. *)
Theorem schedule_ten_items_two_nodes s a b c :
  a ≠ b →
  node2pending s = [(a, []); (b, [])] →
  collection s = None →
  collection_is_completed s = true →
  _check_nodes_have_same_collection s = true →
  head (Dict.values (node2collection s)) = Some c →
  length c = 10 →
  _max_queue_size s = 2 →
  initial_batch s = 4 ∧
  ∃ s', schedule s = Return tt s' ∧
        node2pending s' = [(a, [0; 2]); (b, [1; 3])] ∧
        pending s' = [4; 5; 6; 7; 8; 9] ∧
        collection s' = Some c ∧
        node_of a s' = NodeObj (shutting_down (node_of a s))
                               (shutdown_calls (node_of a s))
                               (dispatched (node_of a s) ++ [[0]; [2]]) ∧
        node_of b s' = NodeObj (shutting_down (node_of b s))
                               (shutdown_calls (node_of b s))
                               (dispatched (node_of b s) ++ [[1]; [3]]).
Proof.
  intros Hab Hq Hc Hcompl Hsame Hhead Hlen Hmax.
  split; [unfold initial_batch, nodes; by rewrite Hq, Hmax|].
  unfold schedule. rewrite Hcompl, Hc, Hsame. simpl.
  destruct (Dict.values (node2collection s)) as [|c' cs]; [done|].
  simpl in Hhead. injection Hhead as ->.
  do 11 (destruct c as [|? c]; try done). clear Hlen.
  destruct s as [n2c n2p p col mn mx pre objs o]. simpl in *. subst.
  unfold initial_batch, nodes, cycle. simpl.
  unfold bind, _send_tests, shutdown_if_exhausted, queue_log, bind,
    node_dispatch_items, print, log, modify, ret.
  repeat (simpl; first [rewrite decide_True by congruence
                       | rewrite decide_False by congruence]).
  eexists. split; [reflexivity|]. simpl.
  do 3 (split; [reflexivity|]).
  unfold node_of. simpl.
  split; repeat (first [rewrite lookup_insert_eq
                       | rewrite lookup_insert_ne by congruence]; simpl);
    by rewrite <- app_assoc.
Qed.

Lemma schedule_ten_items_two_nodes_witness :
  initial_batch two_node_state = 4 ∧
  ∃ s', schedule two_node_state = Return tt s' ∧
        node2pending s' = [(0, [0; 2]); (1, [1; 3])] ∧
        pending s' = [4; 5; 6; 7; 8; 9] ∧
        collection s' = Some ten_items ∧
        node_of 0 s' = NodeObj (shutting_down (node_of 0 two_node_state))
                               (shutdown_calls (node_of 0 two_node_state))
                               (dispatched (node_of 0 two_node_state) ++ [[0]; [2]]) ∧
        node_of 1 s' = NodeObj (shutting_down (node_of 1 two_node_state))
                               (shutdown_calls (node_of 1 two_node_state))
                               (dispatched (node_of 1 two_node_state) ++ [[1]; [3]]).
Proof.
  apply (schedule_ten_items_two_nodes two_node_state 0 1 ten_items);
    first [reflexivity | lia].
Defined.

(** ** Replenishment *)

(** C4.  A known node that is not draining and whose queue is empty gets,
    from [check_schedule], the first two indices of Pending, in the order
    in which Pending holds them, and Pending loses them; when Pending holds
    fewer than two, the node gets all that is left. *)
Theorem check_schedule_fills_empty_queue s n d :
  Dict.get n (node2pending s) = Some [] →
  shutting_down (node_of n s) = false →
  _min_queue_size s = 2 →
  _max_queue_size s = 2 →
  ∃ s', check_schedule n d s = Return tt s' ∧
        queue n s' = take 2 (pending s) ∧
        pending s' = drop 2 (pending s) ∧
        length (queue n s') = Nat.min 2 (length (pending s)) ∧
        (∀ m, m ≠ n → queue m s' = queue m s) ∧
        nodes s' = nodes s ∧
        (pending s ≠ [] →
         dispatched (node_of n s') = dispatched (node_of n s) ++ [take 2 (pending s)]).
Proof.
  intros Hq Hdrain Hmin Hmax. unfold check_schedule. rewrite Hdrain.
  destruct (pending s) as [|x p] eqn:Ep.
  - eexists. split; [reflexivity|]. simpl.
    unfold queue. simpl. rewrite Hq. by repeat split.
  - rewrite Hq, Hmin, Hmax. simpl. rewrite andb_false_r.
    unfold bind, _send_tests. rewrite Ep, Hq. simpl.
    eexists. split; [reflexivity|].
    unfold queue, nodes, node_of. simpl.
    rewrite get_set_eq, lookup_insert_eq. simpl.
    repeat split.
    + by destruct p.
    + intros m Hm. by rewrite get_set_ne.
    + rewrite keys_set_known; eauto.
Qed.

Lemma check_schedule_fills_empty_queue_witness :
  ∃ s', check_schedule 2 duration_default late_join_state = Return tt s' ∧
        queue 2 s' = take 2 (pending late_join_state) ∧
        pending s' = drop 2 (pending late_join_state) ∧
        length (queue 2 s') = Nat.min 2 (length (pending late_join_state)) ∧
        (∀ m, m ≠ 2 → queue m s' = queue m late_join_state) ∧
        nodes s' = nodes late_join_state ∧
        (pending late_join_state ≠ [] →
         dispatched (node_of 2 s')
           = dispatched (node_of 2 late_join_state)
               ++ [take 2 (pending late_join_state)]).
Proof.
  apply (check_schedule_fills_empty_queue late_join_state 2 duration_default);
    reflexivity.
Defined.

(** C7.  A known node whose queue already holds two items gets nothing from
    [check_schedule] while Pending is non-empty, whatever the duration (in
    particular for 0.2, above the threshold 0.1): the queues, Pending and
    the node objects stay as they are. *)
Theorem check_schedule_full_queue_sends_nothing s n q d :
  Dict.get n (node2pending s) = Some q →
  length q = 2 →
  _min_queue_size s = 2 →
  pending s ≠ [] →
  ∃ s', check_schedule n d s = Return tt s' ∧
        node2pending s' = node2pending s ∧
        pending s' = pending s ∧
        node_objs s' = node_objs s.
Proof.
  intros Hq Hlen Hmin Hp. unfold check_schedule.
  destruct (shutting_down (node_of n s)); [by exists s|].
  destruct (pending s) as [|x p] eqn:Ep; [done|].
  rewrite Hq, Hmin, Hlen. simpl.
  eexists. split; [reflexivity|]. done.
Qed.

Lemma check_schedule_full_queue_sends_nothing_witness :
  duration_ge_threshold duration_0_2 = true ∧
  ∃ s', check_schedule 0 duration_0_2 distributed_state = Return tt s' ∧
        node2pending s' = node2pending distributed_state ∧
        pending s' = pending distributed_state ∧
        node_objs s' = node_objs distributed_state.
Proof.
  split; [reflexivity|].
  apply (check_schedule_full_queue_sends_nothing distributed_state 0 [0; 2] duration_0_2);
    [reflexivity | reflexivity | reflexivity | discriminate].
Defined.

(** Every reachable state carries the bounds [__init__] wrote. *)
Lemma reachable_sizes_equal fin s :
  reachable fin s → _min_queue_size s = _max_queue_size s.
Proof. intros (_ & [-> ->] & _)%reachable_wf. done. Qed.

(** C10.  With both queue-size bounds equal, as [__init__] sets them, the
    outcome of [check_schedule] does not depend on the duration: from the
    same state, any two durations give the same result and the same state
    (Pending, node queues, node objects and diagnostics). *)
Theorem check_schedule_duration_independent s n d1 d2 :
  _min_queue_size s = _max_queue_size s →
  check_schedule n d1 s = check_schedule n d2 s.
Proof.
  intros Heq. unfold check_schedule.
  destruct (shutting_down (node_of n s)); [done|].
  destruct (pending s); [done|].
  destruct (Dict.get n (node2pending s)) as [q|]; [|done].
  case_decide as Hlt; [|done].
  rewrite bool_decide_eq_false_2 by lia.
  by rewrite !andb_false_r.
Qed.

Lemma check_schedule_duration_independent_witness :
  check_schedule 0 duration_default distributed_state
    = check_schedule 0 duration_0_2 distributed_state.
Proof.
  apply (check_schedule_duration_independent distributed_state 0
           duration_default duration_0_2).
  reflexivity.
Defined.

(** The withhold branch is live in the model: with minimum 3 and maximum 2
    the duration decides between the silent return and the diagnostics. *)
Example duration_matters_when_bounds_differ :
  check_schedule 0 duration_0_2 reconfigured_state = Return tt reconfigured_state ∧
  out (state_of (check_schedule 0 duration_default reconfigured_state))
    ≠ out reconfigured_state.
Proof. split; [reflexivity | discriminate]. Qed.

(** ** Shutdown *)

Lemma drained_early_state_reachable : reachable [] drained_early_state.
Proof.
  exact (reachable_trace drained_early_trace [] (init ∅) (reachable_init ∅)).
Qed.

(** C5, as stated, fails in its last clause: the scheduler does signal a
    node that is already draining.  In the reachable state below node 0 is
    known and draining, with one shutdown signal received; the first
    [schedule] hands it the only item, finds Pending empty and runs the
    loop of lines 105-108, which signals every known node without looking
    at the draining flag: node 0 receives a second signal. *)
Lemma schedule_signals_draining_node_counterexample :
  nodes drained_early_state = [0] ∧
  shutting_down (node_of 0 drained_early_state) = true ∧
  shutdown_calls (node_of 0 drained_early_state) = 1 ∧
  returned (schedule drained_early_state) = true ∧
  node2pending (state_of (schedule drained_early_state)) = [(0, [0])] ∧
  shutdown_calls (node_of 0 (state_of (schedule drained_early_state))) = 2.
Proof. repeat split. Qed.

(** C5, amended.  When Pending is empty, [check_schedule] on a node that is
    not draining sends it the shutdown signal exactly once (its signal
    count goes up by one, no other node is touched) and the node is
    draining afterwards; a further [check_schedule] on that node changes
    nothing.  In any state, [check_schedule] on a draining node is a no-op,
    so [check_schedule] never signals a node that is already draining. *)
Theorem check_schedule_shutdown_once s n d d' :
  pending s = [] →
  shutting_down (node_of n s) = false →
  ∃ s', check_schedule n d s = Return tt s' ∧
        shutdown_calls (node_of n s') = S (shutdown_calls (node_of n s)) ∧
        shutting_down (node_of n s') = true ∧
        (∀ m, m ≠ n → node_of m s' = node_of m s) ∧
        node2pending s' = node2pending s ∧
        pending s' = [] ∧
        check_schedule n d' s' = Return tt s' ∧
        ∀ t m e, shutting_down (node_of m t) = true →
                 check_schedule m e t = Return tt t.
Proof.
  intros Hp Hdrain. unfold check_schedule at 1. rewrite Hdrain, Hp.
  eexists. split; [reflexivity|].
  unfold node_of. simpl. rewrite lookup_insert_eq. simpl.
  repeat split; try done.
  - intros m Hm. by rewrite lookup_insert_ne.
  - unfold check_schedule, node_of. simpl. by rewrite lookup_insert_eq.
  - intros t m e Ht. unfold check_schedule, node_of. by rewrite Ht.
Qed.

Lemma check_schedule_shutdown_once_witness :
  ∃ s', check_schedule 0 duration_default one_node_state = Return tt s' ∧
        shutdown_calls (node_of 0 s') = S (shutdown_calls (node_of 0 one_node_state)) ∧
        shutting_down (node_of 0 s') = true ∧
        (∀ m, m ≠ 0 → node_of m s' = node_of m one_node_state) ∧
        node2pending s' = node2pending one_node_state ∧
        pending s' = [] ∧
        check_schedule 0 duration_0_2 s' = Return tt s' ∧
        ∀ t m e, shutting_down (node_of m t) = true →
                 check_schedule m e t = Return tt t.
Proof.
  apply (check_schedule_shutdown_once one_node_state 0 duration_default duration_0_2);
    reflexivity.
Defined.

(** ** Collection agreement *)

Lemma same_collection_values s c c' :
  _check_nodes_have_same_collection s = true →
  c ∈ Dict.values (node2collection s) →
  c' ∈ Dict.values (node2collection s) →
  c = c'.
Proof.
  unfold _check_nodes_have_same_collection.
  destruct (Dict.values (node2collection s)) as [|c0 cs]; [by intros _ ?%elem_of_nil|].
  intros Hall Hc Hc'.
  assert (∀ x, x ∈ c0 :: cs → x = c0) as Hx.
  { intros x [->|Hin]%elem_of_cons; [done|].
    rewrite forallb_forall in Hall. apply list_elem_of_In in Hin.
    by apply Hall, bool_decide_eq_true in Hin. }
  by rewrite (Hx c), (Hx c').
Qed.

Lemma elem_values {V} (d : list (node * V)) k v : (k, v) ∈ d → v ∈ Dict.values d.
Proof.
  intros H. unfold Dict.values. apply list_elem_of_fmap. by exists (k, v).
Qed.

(** C6.  If two nodes reported different collections when [schedule] is
    first called, [schedule] logs the abort message and does nothing else:
    no index is assigned, Pending is not initialised, the authoritative
    collection stays unset.  The state is the old one with the message
    appended to the diagnostics. *)
Theorem schedule_collection_mismatch s n1 n2 c1 c2 :
  collection s = None →
  collection_is_completed s = true →
  (n1, c1) ∈ node2collection s →
  (n2, c2) ∈ node2collection s →
  c1 ≠ c2 →
  schedule s = Return tt (set_out (out s ++ [Logged MsgAbort]) s).
Proof.
  intros Hc Hcompl H1 H2 Hne. unfold schedule. rewrite Hcompl, Hc. simpl.
  destruct (_check_nodes_have_same_collection s) eqn:Hsame; [|done].
  destruct Hne. by apply (same_collection_values s); [|eapply elem_values..].
Qed.

Lemma schedule_collection_mismatch_witness :
  schedule mismatch_state
    = Return tt (set_out (out mismatch_state ++ [Logged MsgAbort]) mismatch_state).
Proof.
  apply (schedule_collection_mismatch mismatch_state 0 1
           ["t0"; "t1"]%string ["t0"; "t2"]%string).
  - reflexivity.
  - reflexivity.
  - left.
  - right. left.
  - discriminate.
Defined.

(** C8.  If the nodes that reported agree on the empty collection, the
    first [schedule] sets the authoritative collection and Pending, both
    empty, and returns: nothing is dispatched, no node is signalled and no
    diagnostics are written. *)
Theorem schedule_empty_collection s :
  collection s = None →
  collection_is_completed s = true →
  Dict.values (node2collection s) ≠ [] →
  (∀ c, c ∈ Dict.values (node2collection s) → c = []) →
  schedule s = Return tt (set_pending [] (set_collection (Some []) s)).
Proof.
  intros Hc Hcompl Hne Hall. unfold schedule. rewrite Hcompl, Hc. simpl.
  assert (_check_nodes_have_same_collection s = true) as ->.
  { unfold _check_nodes_have_same_collection.
    destruct (Dict.values (node2collection s)) as [|c0 cs]; [done|].
    apply forallb_forall. intros c Hin%list_elem_of_In.
    apply bool_decide_eq_true.
    rewrite (Hall c0) by left. apply Hall. by right. }
  simpl. destruct (Dict.values (node2collection s)) as [|c0 cs]; [done|].
  rewrite (Hall c0) by left. done.
Qed.

Lemma schedule_empty_collection_witness :
  schedule empty_collection_state
    = Return tt (set_pending [] (set_collection (Some []) empty_collection_state)).
Proof.
  apply (schedule_empty_collection empty_collection_state).
  - reflexivity.
  - reflexivity.
  - discriminate.
  - intros c Hc. vm_compute in Hc.
    repeat (apply elem_of_cons in Hc as [Hc|Hc]; [done|]).
    by apply elem_of_nil in Hc.
Defined.

(** ** Unknown nodes *)

(** C9, as stated, fails: for a node outside the queue map and an empty
    Pending, [check_schedule] returns normally, having sent the shutdown
    signal, and signals no error of any kind. *)
Lemma check_schedule_unknown_node_counterexample :
  Dict.get 9 (node2pending (init ∅)) = None ∧
  returned (check_schedule 9 duration_default (init ∅)) = true ∧
  signals_invariant_violation (check_schedule 9 duration_default (init ∅)) = false ∧
  shutdown_calls (node_of 9 (state_of (check_schedule 9 duration_default (init ∅)))) = 1.
Proof. repeat split. Qed.

(** C9, amended.  For a node that is not in the queue map, [check_schedule]
    returns without effect when the node is draining; sends the shutdown
    signal and returns normally when Pending is empty; and raises the
    [KeyError] of the failed dictionary lookup, leaving the state as it
    was, when Pending is non-empty. *)
Theorem check_schedule_unknown_node s n d :
  Dict.get n (node2pending s) = None →
  (shutting_down (node_of n s) = true → check_schedule n d s = Return tt s) ∧
  (shutting_down (node_of n s) = false → pending s = [] →
     returned (check_schedule n d s) = true ∧
     shutdown_calls (node_of n (state_of (check_schedule n d s)))
       = S (shutdown_calls (node_of n s)) ∧
     node2pending (state_of (check_schedule n d s)) = node2pending s ∧
     pending (state_of (check_schedule n d s)) = []) ∧
  (shutting_down (node_of n s) = false → pending s ≠ [] →
     check_schedule n d s = Raise KeyError s ∧
     signals_invariant_violation (check_schedule n d s) = false).
Proof.
  intros Hq. unfold check_schedule. split; [|split].
  - by intros ->.
  - intros -> Hp. rewrite Hp. repeat split; [|done].
    simpl. unfold node_of. simpl. by rewrite lookup_insert_eq.
  - intros -> Hp. destruct (pending s); [done|]. by rewrite Hq.
Qed.

Lemma check_schedule_unknown_node_witness :
  (shutting_down (node_of 9 distributed_state) = true →
     check_schedule 9 duration_default distributed_state = Return tt distributed_state) ∧
  (shutting_down (node_of 9 distributed_state) = false → pending distributed_state = [] →
     returned (check_schedule 9 duration_default distributed_state) = true ∧
     shutdown_calls (node_of 9 (state_of (check_schedule 9 duration_default distributed_state)))
       = S (shutdown_calls (node_of 9 distributed_state)) ∧
     node2pending (state_of (check_schedule 9 duration_default distributed_state))
       = node2pending distributed_state ∧
     pending (state_of (check_schedule 9 duration_default distributed_state)) = []) ∧
  (shutting_down (node_of 9 distributed_state) = false → pending distributed_state ≠ [] →
     check_schedule 9 duration_default distributed_state = Raise KeyError distributed_state ∧
     signals_invariant_violation (check_schedule 9 duration_default distributed_state) = false).
Proof.
  apply (check_schedule_unknown_node distributed_state 9 duration_default).
  reflexivity.
Defined.

(** * Further properties of [check_schedule] and [schedule] *)

(** ** More on the primitive steps *)

Lemma bind_returned (m k : M unit) s :
  returned (m s) = true → (m ;;; k) s = k (state_of (m s)).
Proof. unfold bind. by destruct (m s) as [[] s'|e s']. Qed.

Lemma set_get_id {V} (d : list (node * V)) k v :
  Dict.get k d = Some v → Dict.set k v d = d.
Proof.
  induction d as [|[k' v'] d IH]; simpl; [done|].
  case_decide; subst.
  - by intros [= ->].
  - intros Hd. by rewrite IH.
Qed.

Lemma keys_elem_get {V} (d : list (node * V)) k :
  k ∈ Dict.keys d → ∃ v, Dict.get k d = Some v.
Proof.
  intros Hk. destruct (Dict.get k d) as [v|] eqn:E; [by exists v|].
  by apply get_None_keys in E.
Qed.

Lemma signals_unchanged_refl s : signals_unchanged s s.
Proof. by intros m. Qed.

Lemma signals_unchanged_trans s1 s2 s3 :
  signals_unchanged s1 s2 → signals_unchanged s2 s3 → signals_unchanged s1 s3.
Proof.
  intros H12 H23 m. destruct (H12 m) as [<- <-]. apply H23.
Qed.

(** On a known node [_send_tests] always returns, and moves exactly the
    first [num] indices of Pending (all of them when there are fewer). *)
Lemma send_tests_known n num q s :
  Dict.get n (node2pending s) = Some q →
  ∃ s', _send_tests n num s = Return tt s' ∧
        pending s' = drop (Z.to_nat num) (pending s) ∧
        node2pending s'
          = Dict.set n (q ++ take (Z.to_nat num) (pending s)) (node2pending s) ∧
        out s' = out s ∧
        (∀ m, m ≠ n → node_of m s' = node_of m s) ∧
        dispatched (node_of n s')
          = dispatched (node_of n s) ++
              match take (Z.to_nat num) (pending s) with
              | [] => []
              | t => [t]
              end.
Proof.
  intros Hq. unfold _send_tests. rewrite Hq.
  destruct (take (Z.to_nat num) (pending s)) as [|x t] eqn:Et.
  - exists s. rewrite app_nil_r, (set_get_id _ _ _ Hq), app_nil_r.
    repeat split; try done.
    apply (f_equal length) in Et. rewrite length_take in Et. simpl in Et.
    destruct (decide (Z.to_nat num = 0)) as [->|]; [done|].
    destruct (pending s); [by rewrite drop_nil | simpl in Et; lia].
  - eexists. split; [reflexivity|]. unfold node_of. simpl.
    rewrite lookup_insert_eq. repeat split; try done.
    intros m Hm. by rewrite lookup_insert_ne.
Qed.

Lemma send_tests_signals n num s0 :
  preserves (signals_unchanged s0) (_send_tests n num).
Proof.
  intros s Hs. destruct (send_tests_cases n num s) as [->|(q & Hq & _ & ->)]; [done|].
  intros m. destruct (Hs m) as [<- <-]. unfold node_of at 1 3. simpl.
  destruct (decide (n = m)) as [->|Hne].
  - by rewrite lookup_insert_eq.
  - by rewrite lookup_insert_ne.
Qed.

Lemma send_tests_pending_nil n num :
  preserves (fun s => pending s = []) (_send_tests n num).
Proof.
  intros s Hs. destruct (send_tests_cases n num s) as [->|(q & Hq & Ht & _)]; [done|].
  rewrite Hs, take_nil in Ht. done.
Qed.

(** ** Index flow through [check_schedule] *)

(** X1.  As long as line 54 cannot compute a negative [num_send] (the
    minimum is not above the maximum, or the queue is not above the
    maximum), [check_schedule] moves indices in one way only: some number
    [k] of them, at most the room left below the maximum, leaves the front
    of Pending and is appended, in the same order, to the queue of the node
    that was passed.  No other queue changes, no node is added or removed,
    and nothing is reordered or lost. *)
Theorem check_schedule_moves_front n d s :
  _min_queue_size s ≤ _max_queue_size s ∨
  length (queue n s) ≤ _max_queue_size s →
  let s' := state_of (check_schedule n d s) in
  ∃ k, k ≤ _max_queue_size s - length (queue n s) ∧
       pending s = take k (pending s) ++ pending s' ∧
       queue n s' = queue n s ++ take k (pending s) ∧
       (∀ m, m ≠ n → queue m s' = queue m s) ∧
       nodes s' = nodes s.
Proof.
  intros Hsane.
  assert (∀ s0, pending s0 = take 0 (pending s0) ++ pending s0 ∧
                queue n s0 = queue n s0 ++ take 0 (pending s0)) as Hzero.
  { intros s0. by rewrite take_0, app_nil_r. }
  simpl. unfold check_schedule.
  destruct (shutting_down (node_of n s)).
  { exists 0. destruct (Hzero s). repeat split; [lia|done..]. }
  destruct (pending s) as [|x p] eqn:Ep.
  { exists 0. simpl. rewrite Ep. repeat split; [lia|by rewrite app_nil_r]. }
  destruct (Dict.get n (node2pending s)) as [q|] eqn:Eq.
  2: { exists 0. simpl. rewrite Ep. repeat split; [lia|by rewrite app_nil_r]. }
  assert (queue n s = q) as Hqn by (unfold queue; by rewrite Eq).
  case_decide as Hlt.
  2: { exists 0. simpl. rewrite Ep. repeat split; [lia|by rewrite app_nil_r]. }
  destruct (_ && _).
  { exists 0. simpl. rewrite Ep. repeat split; [lia|by rewrite app_nil_r]. }
  set (num := (Z.of_nat (_max_queue_size s) - Z.of_nat (length q))%Z).
  assert (0 ≤ num)%Z as Hnum by (rewrite Hqn in Hsane; lia).
  destruct (send_tests_known n num q s Eq) as (s1 & Hs1 & Hp1 & Hq1 & _).
  rewrite bind_returned by (by rewrite Hs1). rewrite Hs1. simpl.
  rewrite Ep in Hp1, Hq1.
  exists (Z.to_nat num). rewrite Hqn, Hp1. repeat split.
  - lia.
  - by rewrite take_drop.
  - unfold queue. simpl. by rewrite Hq1, get_set_eq.
  - intros m Hm. unfold queue. simpl. rewrite Hq1, get_set_ne; done.
  - unfold nodes. simpl. rewrite Hq1, keys_set_known; eauto.
Qed.

Lemma check_schedule_moves_front_witness :
  let s' := state_of (check_schedule 2 duration_default late_join_state) in
  ∃ k, k ≤ _max_queue_size late_join_state - length (queue 2 late_join_state) ∧
       pending late_join_state = take k (pending late_join_state) ++ pending s' ∧
       queue 2 s' = queue 2 late_join_state ++ take k (pending late_join_state) ∧
       (∀ m, m ≠ 2 → queue m s' = queue m late_join_state) ∧
       nodes s' = nodes late_join_state.
Proof.
  apply (check_schedule_moves_front 2 duration_default late_join_state).
  left. simpl. lia.
Defined.

(** ** When the two methods raise *)

Lemma returned_bind (m k : M unit) s :
  returned ((m ;;; k) s) = returned (m s) && returned (k (state_of (m s))).
Proof. unfold bind. by destruct (m s). Qed.

Lemma check_schedule_known_returned n d s :
  n ∈ nodes s → returned (check_schedule n d s) = true.
Proof.
  intros [q Hq]%keys_elem_get. unfold check_schedule.
  destruct (shutting_down (node_of n s)); [done|].
  destruct (pending s); [done|]. rewrite Hq.
  case_decide; [|done]. destruct (_ && _); [done|].
  destruct (send_tests_known n
    (Z.of_nat (_max_queue_size s) - Z.of_nat (length q)) q s Hq) as (s1 & Hs1 & _).
  by rewrite returned_bind, Hs1.
Qed.

(** X2.  [check_schedule] raises in one situation only: the node is not
    draining, Pending is non-empty and the node is not a key of the queue
    map.  The exception is then the [KeyError] of line 47 and the state is
    untouched.  In every other situation the call returns. *)
Theorem check_schedule_raises_iff n d s :
  (shutting_down (node_of n s) = false ∧ pending s ≠ [] ∧ n ∉ nodes s →
   check_schedule n d s = Raise KeyError s) ∧
  (shutting_down (node_of n s) = true ∨ pending s = [] ∨ n ∈ nodes s →
   returned (check_schedule n d s) = true).
Proof.
  split.
  - intros (Hd & Hp & Hn). apply get_None_keys in Hn.
    unfold check_schedule. rewrite Hd, Hn. by destruct (pending s).
  - intros [Hd|[Hp|Hn]].
    + unfold check_schedule. by rewrite Hd.
    + unfold check_schedule. rewrite Hp. by destruct (shutting_down _).
    + by apply check_schedule_known_returned.
Qed.

Lemma for_each_check_returned d l : ∀ s,
  (∀ n, n ∈ l → n ∈ nodes s) →
  returned (for_each l (fun n => check_schedule n d) s) = true.
Proof.
  induction l as [|x l IH]; intros s Hl; simpl; [done|].
  rewrite returned_bind, check_schedule_known_returned by (apply Hl; left).
  simpl. apply IH. intros n Hn.
  rewrite (check_schedule_nodes x d (nodes s) s eq_refl). apply Hl. by right.
Qed.

Lemma for_each_shutdown_returned l : ∀ s,
  returned (for_each l node_shutdown s) = true.
Proof.
  induction l as [|x l IH]; intros s; simpl; [done|].
  rewrite returned_bind. simpl. apply IH.
Qed.

(** As long as the iterator only yields known nodes and is not empty, the
    distribution loop returns and takes [count] indices off Pending. *)
Lemma distribute_returned count : ∀ it s,
  saved it ≠ [] ∨ count = 0 →
  (∀ n, n ∈ upcoming it ∨ n ∈ saved it → n ∈ nodes s) →
  returned (distribute count it s) = true ∧
  pending (state_of (distribute count it s)) = drop count (pending s).
Proof.
  induction count as [|k IH]; intros it s Hne Hknown; simpl; [done|].
  destruct Hne as [Hne|?]; [|done].
  assert (∃ x it', next it = Some (x, it') ∧ saved it' = saved it ∧
            (x ∈ upcoming it ∨ x ∈ saved it) ∧
            ∀ n, n ∈ upcoming it' ∨ n ∈ saved it' →
                 n ∈ upcoming it ∨ n ∈ saved it) as (x & it' & -> & Hsv & Hx & Hsub).
  { unfold next. destruct (upcoming it) as [|x r] eqn:Eu.
    - destruct (saved it) as [|x r] eqn:Es; [done|].
      exists x, (Cycle r (x :: r)). simpl. repeat split; [right; left|].
      intros n [Hn|Hn]; right; [by right | done].
    - exists x, (Cycle r (saved it)). simpl. repeat split; [left; left|].
      intros n [Hn|Hn]; [left; by right | by right]. }
  destruct (keys_elem_get _ _ (Hknown x Hx)) as [q Hq].
  destruct (send_tests_known x 1 q s Hq) as (s1 & Hs1 & Hp1 & Hq1 & _).
  rewrite bind_returned by (by rewrite Hs1). rewrite Hs1. simpl.
  destruct (IH it' s1) as [Hr Hp].
  - left. by rewrite Hsv.
  - intros n Hn. unfold nodes. rewrite Hq1, keys_set_known by eauto.
    by apply Hknown, Hsub.
  - split; [done|]. rewrite Hp, Hp1. by rewrite drop_drop.
Qed.

(** X3.  [schedule] can fail in two ways only, both before it changes
    anything: the assertion of line 75, and the [IndexError] of line 89
    when no node has reported a collection.  Otherwise it returns; in
    particular the round-robin iterator is never exhausted and no node
    handed to [_send_tests] or [check_schedule] is unknown. *)
Theorem schedule_raises_only_on_entry s :
  (collection_is_completed s = false → schedule s = Raise AssertionError s) ∧
  (collection_is_completed s = true → collection s = None →
   node2collection s = [] → schedule s = Raise IndexError s) ∧
  (collection_is_completed s = true →
   collection s ≠ None ∨ node2collection s ≠ [] →
   returned (schedule s) = true).
Proof.
  unfold schedule. split; [|split].
  - by intros ->.
  - intros -> -> Hnc. unfold _check_nodes_have_same_collection. by rewrite Hnc.
  - intros -> Hor. simpl. destruct (collection s) as [c0|] eqn:Ec.
    { by apply for_each_check_returned. }
    destruct Hor as [?|Hnc]; [done|].
    destruct (negb (_check_nodes_have_same_collection s)); [done|].
    destruct (node2collection s) as [|[n0 c] rest]; [done|]. simpl.
    destruct c as [|t c]; [done|].
    set (s1 := set_pending _ _).
    rewrite returned_bind.
    destruct (distribute_returned (initial_batch s1) (cycle (nodes s1)) s1) as [-> _].
    + unfold initial_batch. simpl.
      destruct (nodes s1); [right; simpl; lia | by left].
    + simpl. by intros n [?|?].
    + simpl. rewrite returned_bind. unfold shutdown_if_exhausted at 1.
      destruct (pending _); [|done].
      by rewrite for_each_shutdown_returned.
Qed.

(** ** Replenishment is work conserving *)

Lemma check_schedule_bounds n d a b :
  preserves (fun s => _min_queue_size s = a ∧ _max_queue_size s = b)
            (check_schedule n d).
Proof.
  apply check_schedule_preserves; [|frame|frame].
  intros s q Hs _ _.
  by destruct (send_tests_cases n
    (Z.of_nat (_max_queue_size s) - Z.of_nat (length q)) s) as [->|(? & _ & _ & ->)].
Qed.

(** A node that is full, or any node once Pending is empty, gets nothing:
    the call leaves Pending and all queues alone. *)
Lemma check_schedule_stable n d s :
  pending s = [] ∨ _min_queue_size s ≤ length (queue n s) →
  pending (state_of (check_schedule n d s)) = pending s ∧
  node2pending (state_of (check_schedule n d s)) = node2pending s.
Proof.
  intros Hor. unfold check_schedule.
  destruct (shutting_down (node_of n s)); [done|].
  destruct (pending s) as [|x p] eqn:Ep; [by rewrite <- Ep|].
  destruct Hor as [?|Hfull]; [done|]. unfold queue in Hfull.
  destruct (Dict.get n (node2pending s)) as [q|]; [|done].
  simpl in Hfull. rewrite decide_False by lia. done.
Qed.

Lemma check_schedule_fills_node n d q s :
  Dict.get n (node2pending s) = Some q →
  shutting_down (node_of n s) = false →
  _min_queue_size s = _max_queue_size s →
  length q ≤ _max_queue_size s →
  length (queue n (state_of (check_schedule n d s))) = _max_queue_size s ∨
  pending (state_of (check_schedule n d s)) = [].
Proof.
  intros Hq Hd Hmm Hle. unfold check_schedule. rewrite Hd, Hq.
  destruct (pending s) as [|x p] eqn:Ep; [by right|].
  case_decide as Hlt.
  2: { left. unfold queue. simpl. rewrite Hq. simpl. lia. }
  rewrite bool_decide_eq_false_2, andb_false_r by lia.
  set (num := (Z.of_nat (_max_queue_size s) - Z.of_nat (length q))%Z).
  destruct (send_tests_known n num q s Hq) as (s1 & Hs1 & Hp1 & Hq1 & _).
  rewrite bind_returned by (by rewrite Hs1). rewrite Hs1. simpl.
  destruct (decide (Z.to_nat num ≤ length (pending s))) as [Hk|Hk].
  - left. unfold queue. simpl. rewrite Hq1, get_set_eq. simpl.
    rewrite length_app, length_take. lia.
  - right. rewrite Hp1. apply drop_ge. lia.
Qed.

(** X4.  With equal bounds, [check_schedule] on a known node that is not
    draining and not over the maximum leaves that node with a full queue,
    or else Pending empty: a node never keeps room while indices wait.
    Calling it again right away moves no further index. *)
Theorem check_schedule_fills_or_exhausts n d d' q s :
  Dict.get n (node2pending s) = Some q →
  shutting_down (node_of n s) = false →
  _min_queue_size s = _max_queue_size s →
  length q ≤ _max_queue_size s →
  let s' := state_of (check_schedule n d s) in
  let s'' := state_of (check_schedule n d' s') in
  (length (queue n s') = _max_queue_size s ∨ pending s' = []) ∧
  pending s'' = pending s' ∧
  node2pending s'' = node2pending s'.
Proof.
  intros Hq Hd Hmm Hle s'.
  pose proof (check_schedule_fills_node n d q s Hq Hd Hmm Hle) as Hfirst.
  fold s' in Hfirst.
  split; [done|]. apply check_schedule_stable.
  destruct (check_schedule_bounds n d _ _ s (conj eq_refl eq_refl)) as [Hmin' _].
  fold s' in Hmin'. destruct Hfirst as [Hfull|?]; [right | by left].
  rewrite Hmin'. lia.
Qed.

Lemma check_schedule_fills_or_exhausts_witness :
  let s' := state_of (check_schedule 2 duration_default late_join_state) in
  let s'' := state_of (check_schedule 2 duration_0_2 s') in
  (length (queue 2 s') = _max_queue_size late_join_state ∨ pending s' = []) ∧
  pending s'' = pending s' ∧
  node2pending s'' = node2pending s'.
Proof.
  apply (check_schedule_fills_or_exhausts 2 duration_default duration_0_2 []
           late_join_state); first [reflexivity | simpl; lia].
Defined.

(** ** Shutdown signals *)

Lemma check_schedule_pending_nil n d :
  preserves (fun s => pending s = []) (check_schedule n d).
Proof.
  apply check_schedule_preserves; [|frame|frame].
  intros s q Hs _ _. by apply send_tests_pending_nil.
Qed.

Lemma check_schedule_signals n d s :
  signals_unchanged s (state_of (check_schedule n d s)) ∨
  pending (state_of (check_schedule n d s)) = [].
Proof.
  unfold check_schedule.
  destruct (shutting_down (node_of n s)); [left; apply signals_unchanged_refl|].
  destruct (pending s) as [|x p] eqn:Ep; [by right|].
  left. destruct (Dict.get n (node2pending s)) as [q|];
    [|apply signals_unchanged_refl].
  case_decide; [|by intros m].
  destruct (_ && _); [apply signals_unchanged_refl|].
  apply (preserves_bind (signals_unchanged s)).
  - apply send_tests_signals.
  - frame.
  - apply signals_unchanged_refl.
Qed.

Lemma for_each_check_signals d l : ∀ s,
  signals_unchanged s (state_of (for_each l (fun n => check_schedule n d) s)) ∨
  pending (state_of (for_each l (fun n => check_schedule n d) s)) = [].
Proof.
  induction l as [|x l IH]; intros s; simpl.
  { left. apply signals_unchanged_refl. }
  rewrite state_of_bind. destruct (returned _); [|apply check_schedule_signals].
  destruct (check_schedule_signals x d s) as [Hx|Hx].
  - destruct (IH (state_of (check_schedule x d s))) as [Hl|Hl]; [left|by right].
    by apply (signals_unchanged_trans _ _ _ Hx).
  - right. apply (preserves_for_each (fun s' => pending s' = [])); [|done].
    intros n _. apply check_schedule_pending_nil.
Qed.

Lemma schedule_signals s :
  signals_unchanged s (state_of (schedule s)) ∨ pending (state_of (schedule s)) = [].
Proof.
  unfold schedule.
  destruct (negb (collection_is_completed s)); [left; apply signals_unchanged_refl|].
  destruct (collection s) as [c0|]; [apply for_each_check_signals|].
  destruct (negb (_check_nodes_have_same_collection s)); [left; by intros m|].
  destruct (Dict.values (node2collection s)) as [|c _];
    [left; apply signals_unchanged_refl|].
  destruct c as [|t c]; [by right|].
  set (s1 := set_pending _ _). set (count := initial_batch s1).
  set (it := cycle (nodes s1)).
  assert (signals_unchanged s (state_of (distribute count it s1))) as Hdist.
  { apply (distribute_preserves (signals_unchanged s)).
    - intros n. apply send_tests_signals.
    - by intros m. }
  rewrite state_of_bind. destruct (returned _); [|by left].
  set (s2 := state_of (distribute count it s1)) in *.
  destruct (pending s2) as [|x p] eqn:Ep.
  - right.
    apply (preserves_bind (fun s' => pending s' = [])); [| |done].
    + apply shutdown_if_exhausted_preserves. intros n. frame.
    + frame.
  - left. unfold bind, shutdown_if_exhausted. by rewrite Ep.
Qed.

(** X5.  A shutdown signal goes out only when nothing is left to hand out:
    if Pending is non-empty after [schedule] or [check_schedule], then the
    call has not signalled any node, and no draining flag has changed. *)
Theorem shutdown_only_when_exhausted s o :
  is_scheduling_op o = true →
  pending (state_of (run o s)) ≠ [] →
  signals_unchanged s (state_of (run o s)).
Proof.
  intros Ho Hp. destruct o as [| | |n d|]; try done; simpl in *.
  - by destruct (schedule_signals s).
  - by destruct (check_schedule_signals n d s).
Qed.

Lemma shutdown_only_when_exhausted_witness :
  signals_unchanged late_join_state
    (state_of (run (CheckSchedule 2 duration_default) late_join_state)).
Proof.
  apply (shutdown_only_when_exhausted late_join_state
           (CheckSchedule 2 duration_default)); [reflexivity | discriminate].
Defined.

(** ** What the two methods never touch *)

Lemma configuration_kept_refl s : configuration_kept s s.
Proof. repeat split. exists []. by rewrite app_nil_r. Qed.

Lemma send_tests_kept n num s0 :
  preserves (configuration_kept s0) (_send_tests n num).
Proof.
  intros s Hs. destruct (send_tests_cases n num s) as [->|(q & Hq & _ & ->)]; [done|].
  destruct Hs as (Hn & Hrest). split; [|exact Hrest].
  rewrite <- Hn. unfold nodes. simpl. rewrite keys_set_known; eauto.
Qed.

Lemma log_kept m s0 : preserves (configuration_kept s0) (log m).
Proof.
  intros s (? & ? & ? & ? & ? & l & Hl). repeat split; try done.
  exists (l ++ [Logged m]). simpl. by rewrite Hl, app_assoc.
Qed.

Lemma print_kept m s0 : preserves (configuration_kept s0) (print m).
Proof.
  intros s (? & ? & ? & ? & ? & l & Hl). repeat split; try done.
  exists (l ++ [Printed m]). simpl. by rewrite Hl, app_assoc.
Qed.

Lemma queue_log_kept meth s0 : preserves (configuration_kept s0) (queue_log meth).
Proof.
  intros s Hs. unfold queue_log.
  apply preserves_bind; [apply print_kept | apply log_kept | done].
Qed.

Lemma check_schedule_log_kept s0 : preserves (configuration_kept s0) check_schedule_log.
Proof.
  apply preserves_bind; [apply queue_log_kept|].
  intros s Hs. by apply log_kept.
Qed.

Lemma node_shutdown_kept n s0 : preserves (configuration_kept s0) (node_shutdown n).
Proof. frame. Qed.

Lemma check_schedule_kept n d s0 :
  preserves (configuration_kept s0) (check_schedule n d).
Proof.
  apply check_schedule_preserves.
  - intros s q Hs _ _. by apply send_tests_kept.
  - apply node_shutdown_kept.
  - apply check_schedule_log_kept.
Qed.

Lemma node_shutdown_collection n c :
  preserves (fun s => collection s = c) (node_shutdown n).
Proof. frame. Qed.

Lemma schedule_kept s : configuration_kept s (state_of (schedule s)).
Proof.
  unfold schedule.
  destruct (negb (collection_is_completed s)); [apply configuration_kept_refl|].
  destruct (collection s) as [c0|] eqn:Ec.
  { apply preserves_for_each; [|apply configuration_kept_refl].
    intros n _. apply check_schedule_kept. }
  destruct (negb (_check_nodes_have_same_collection s)).
  { apply log_kept, configuration_kept_refl. }
  destruct (Dict.values (node2collection s)) as [|c _];
    [apply configuration_kept_refl|].
  assert (∀ c', configuration_kept s
            (set_pending (seq 0 (length c')) (set_collection (Some c') s))) as Hs1.
  { intros c'. repeat split. exists []. simpl. by rewrite app_nil_r. }
  destruct c as [|t c]; [apply Hs1|].
  apply initial_distribution_preserves.
  - intros n. apply send_tests_kept.
  - intros n. apply node_shutdown_kept.
  - apply queue_log_kept.
  - apply Hs1.
Qed.

Lemma schedule_keeps_collection s c :
  collection s = Some c → collection (state_of (schedule s)) = Some c.
Proof.
  intros Hc. unfold schedule.
  destruct (negb (collection_is_completed s)); [done|]. rewrite Hc.
  apply (preserves_for_each (fun s' => collection s' = Some c)); [|done].
  intros n _. apply check_schedule_collection.
Qed.

(** X6.  Neither [schedule] nor [check_schedule] ever adds or removes a
    node, alters the collection registry, the two bounds or the prefix, or
    drops a diagnostic already written; and once a collection has been
    adopted, neither replaces it. *)
Theorem scheduling_keeps_configuration s o :
  is_scheduling_op o = true →
  configuration_kept s (state_of (run o s)) ∧
  ∀ c, collection s = Some c → collection (state_of (run o s)) = Some c.
Proof.
  intros Ho. destruct o as [| | |n d|]; try done; simpl.
  - split; [apply schedule_kept|]. intros c. apply schedule_keeps_collection.
  - split; [apply check_schedule_kept, configuration_kept_refl|].
    intros c Hc. by apply check_schedule_collection.
Qed.

Lemma scheduling_keeps_configuration_witness :
  configuration_kept distributed_state (state_of (run Schedule distributed_state)) ∧
  ∀ c, collection distributed_state = Some c →
       collection (state_of (run Schedule distributed_state)) = Some c.
Proof.
  apply (scheduling_keeps_configuration distributed_state Schedule). reflexivity.
Defined.

(** ** The first [schedule], in general *)

Lemma returned_Return (r : outcome unit) :
  returned r = true → r = Return tt (state_of r).
Proof. by destruct r as [[] s|e s]. Qed.

(** One pass over distinct known nodes, with enough indices pending: the
    node at position [j] gets the [j]-th pending index. *)
Lemma for_each_send_pass ns : NoDup ns → ∀ s a len,
  (∀ n, n ∈ ns → n ∈ nodes s) →
  pending s = seq a len →
  length ns ≤ len →
  let s' := state_of (for_each ns (fun n => _send_tests n 1) s) in
  returned (for_each ns (fun n => _send_tests n 1) s) = true ∧
  pending s' = seq (a + length ns) (len - length ns) ∧
  nodes s' = nodes s ∧
  (∀ j n, ns !! j = Some n → queue n s' = queue n s ++ [a + j]) ∧
  (∀ m, m ∉ ns → queue m s' = queue m s).
Proof.
  induction 1 as [|x ns Hx Hnd IH]; intros s a len Hk Hp Hlen; simpl.
  { rewrite Nat.add_0_r, Nat.sub_0_r. repeat split; done. }
  simpl in Hlen. destruct len as [|len]; [lia|]. simpl in Hp.
  destruct (keys_elem_get _ _ (Hk x ltac:(left))) as [q Hq].
  destruct (send_tests_known x 1 q s Hq) as (s1 & Hs1 & Hp1 & Hq1 & _).
  rewrite Hp in Hp1, Hq1. simpl in Hp1, Hq1. rewrite drop_0 in Hp1.
  rewrite take_0 in Hq1.
  assert (nodes s1 = nodes s) as Hn1.
  { unfold nodes. rewrite Hq1, keys_set_known; eauto. }
  assert (∀ m, m ≠ x → queue m s1 = queue m s) as Ho1.
  { intros m Hm. unfold queue. by rewrite Hq1, get_set_ne. }
  assert (queue x s1 = queue x s ++ [a]) as Hx1.
  { unfold queue. by rewrite Hq1, get_set_eq, Hq. }
  rewrite bind_returned by (by rewrite Hs1). rewrite Hs1. simpl.
  destruct (IH s1 (S a) len) as (Hr & Hp' & Hn' & Hq' & Ho').
  { intros n Hn. rewrite Hn1. apply Hk. by right. }
  { done. }
  { lia. }
  repeat split.
  - done.
  - rewrite Hp'. f_equal; lia.
  - by rewrite Hn'.
  - intros [|j] n Hj; simpl in Hj.
    + injection Hj as <-. rewrite Ho' by done. by rewrite Hx1, Nat.add_0_r.
    + assert (n ∈ ns) as Hin by (by eapply list_elem_of_lookup_2).
      rewrite (Hq' j n Hj), Ho1 by (by intros ->).
      do 2 f_equal. lia.
  - intros m [Hm1 Hm2]%not_elem_of_cons. by rewrite Ho', Ho1.
Qed.

(** [r] full rounds: the node at position [j] gets the indices
    [a + j], [a + K + j], ... in this order. *)
Lemma distribute_rounds_exact ns r : NoDup ns → ∀ s a len,
  (∀ n, n ∈ ns → n ∈ nodes s) →
  pending s = seq a len →
  r * length ns ≤ len →
  let s' := state_of (distribute (r * length ns) (cycle ns) s) in
  returned (distribute (r * length ns) (cycle ns) s) = true ∧
  pending s' = seq (a + r * length ns) (len - r * length ns) ∧
  nodes s' = nodes s ∧
  ∀ j n, ns !! j = Some n →
         queue n s' = queue n s ++ map (fun i => a + i * length ns + j) (seq 0 r).
Proof.
  intros Hnd. induction r as [|r IH]; intros s a len Hk Hp Hlen.
  { simpl. rewrite Nat.add_0_r, Nat.sub_0_r. repeat split; try done.
    intros j n _. by rewrite app_nil_r. }
  change (S r * length ns) with (length ns + r * length ns) in *.
  unfold cycle. cbv zeta. rewrite distribute_upcoming.
  destruct (for_each_send_pass ns Hnd s a len Hk Hp) as (Hr1 & Hp1 & Hn1 & Hq1 & _);
    [lia|].
  rewrite bind_returned by done. rewrite distribute_wrap.
  set (s1 := state_of (for_each ns (fun n => _send_tests n 1) s)) in *.
  destruct (IH s1 (a + length ns) (len - length ns)) as (Hr2 & Hp2 & Hn2 & Hq2).
  { intros n Hn. rewrite Hn1. by apply Hk. }
  { done. }
  { lia. }
  repeat split.
  - done.
  - rewrite Hp2. f_equal; lia.
  - by rewrite Hn2.
  - intros j n Hj. rewrite (Hq2 j n Hj), (Hq1 j n Hj), <- app_assoc. f_equal.
    simpl. f_equal; [lia|].
    rewrite <- seq_shift, map_map. apply map_ext. intros i. lia.
Qed.

(** On its first call, with agreement on a non-empty collection,
    [schedule] is the distribution followed by the shutdown test and the
    diagnostics, run on the state with the collection adopted. *)
Lemma schedule_first s c :
  collection s = None →
  collection_is_completed s = true →
  _check_nodes_have_same_collection s = true →
  head (Dict.values (node2collection s)) = Some c →
  c ≠ [] →
  schedule s =
    (distribute (initial_batch s) (cycle (nodes s)) ;;;
     shutdown_if_exhausted ;;; queue_log "schedule")
      (set_pending (seq 0 (length c)) (set_collection (Some c) s)).
Proof.
  intros Hc Hcompl Hsame Hhead Hne. unfold schedule.
  rewrite Hcompl, Hc, Hsame. simpl.
  destruct (Dict.values (node2collection s)) as [|c' cs]; [done|].
  injection Hhead as ->. by destruct c.
Qed.

Lemma for_each_shutdown_effect l : NoDup l → ∀ s,
  let s' := state_of (for_each l node_shutdown s) in
  pending s' = pending s ∧
  node2pending s' = node2pending s ∧
  collection s' = collection s ∧
  (∀ m, m ∈ l → shutting_down (node_of m s') = true ∧
                shutdown_calls (node_of m s') = S (shutdown_calls (node_of m s))) ∧
  (∀ m, m ∉ l → node_of m s' = node_of m s).
Proof.
  induction 1 as [|x l Hx Hnd IH]; intros s; simpl.
  { split_and!; try done. by intros m ?%elem_of_nil. }
  set (s1 := state_of (node_shutdown x s)).
  change (state_of ((node_shutdown x ;;; for_each l node_shutdown) s))
    with (state_of (for_each l node_shutdown s1)).
  destruct (IH s1) as (Hp & Hq & Hc & Hin & Hout).
  assert (∀ m, m ≠ x → node_of m s1 = node_of m s) as Hother.
  { intros m Hm. unfold node_of, s1. simpl. by rewrite lookup_insert_ne. }
  split_and!; try done.
  - intros m Hml. destruct (decide (m = x)) as [->|Hm].
    + rewrite Hout by done. unfold node_of, s1. simpl. by rewrite lookup_insert_eq.
    + apply elem_of_cons in Hml as [?|Hl]; [done|].
      destruct (Hin m Hl) as [-> ->]. by rewrite Hother.
  - intros m [Hm1 Hm2]%not_elem_of_cons. by rewrite Hout, Hother.
Qed.

(** X7.  The first [schedule] with at most [initial_batch] items (and at
    least one): every index is handed to some node, Pending ends empty,
    and every known node receives the shutdown signal exactly once. *)
Theorem schedule_exhausting_collection s c :
  collection s = None →
  collection_is_completed s = true →
  _check_nodes_have_same_collection s = true →
  head (Dict.values (node2collection s)) = Some c →
  c ≠ [] →
  NoDup (nodes s) →
  length c ≤ initial_batch s →
  ∃ s', schedule s = Return tt s' ∧
        pending s' = [] ∧
        collection s' = Some c ∧
        assigned s' ≡ₚ seq 0 (length c) ++ assigned s ∧
        ∀ n, n ∈ nodes s →
             shutting_down (node_of n s') = true ∧
             shutdown_calls (node_of n s') = S (shutdown_calls (node_of n s)).
Proof.
  intros Hc Hcompl Hsame Hhead Hne Hnd Hlen.
  rewrite (schedule_first s c) by done.
  set (s1 := set_pending _ _). set (it := cycle (nodes s)).
  destruct (distribute_returned (initial_batch s) it s1) as [Hr Hp2].
  { left. simpl. intros Hnil. unfold initial_batch in Hlen. rewrite Hnil in Hlen.
    destruct c; [done|]. simpl in Hlen. lia. }
  { by intros n [?|?]. }
  set (s2 := state_of (distribute (initial_batch s) it s1)) in *.
  assert (pending s2 = []) as Hp.
  { rewrite Hp2. apply drop_ge. simpl. by rewrite length_seq. }
  assert (nodes s2 = nodes s) as Hn2.
  { apply (distribute_preserves (fun s' => nodes s' = nodes s)); [|done].
    intros n. apply send_tests_nodes. }
  assert (collection s2 = Some c) as Hc2.
  { apply (distribute_preserves (fun s' => collection s' = Some c)); [|done].
    intros n. apply send_tests_collection. }
  assert (pending s2 ++ assigned s2 ≡ₚ seq 0 (length c) ++ assigned s) as Hperm.
  { apply (distribute_preserves
             (fun s' => pending s' ++ assigned s' ≡ₚ seq 0 (length c) ++ assigned s));
      [|done].
    intros n. apply send_tests_perm. }
  assert (signals_unchanged s s2) as Hsig.
  { apply (distribute_preserves (signals_unchanged s)); [|by intros m].
    intros n. apply send_tests_signals. }
  rewrite Hp in Hperm. simpl in Hperm.
  rewrite bind_returned by done. fold s2.
  assert (shutdown_if_exhausted s2 = for_each (nodes s) node_shutdown s2) as Hsd.
  { unfold shutdown_if_exhausted. by rewrite Hp, Hn2. }
  rewrite bind_returned by (rewrite Hsd; apply for_each_shutdown_returned).
  rewrite Hsd.
  destruct (for_each_shutdown_effect (nodes s) Hnd s2) as (Hp3 & Hq3 & Hc3 & Hin & _).
  eexists. split; [reflexivity|]. simpl.
  rewrite Hp3, Hc3. split_and!; try done.
  - unfold assigned. simpl. by rewrite Hq3.
  - intros n Hn. destruct (Hin n Hn) as [H1 H2]. destruct (Hsig n) as [_ H3].
    split; [exact H1|]. etrans; [exact H2|]. by rewrite H3.
Qed.

Lemma schedule_exhausting_collection_witness :
  ∃ s', schedule three_item_state = Return tt s' ∧
        pending s' = [] ∧
        collection s' = Some ["test_a"; "test_b"; "test_c"]%string ∧
        assigned s' ≡ₚ seq 0 3 ++ assigned three_item_state ∧
        ∀ n, n ∈ nodes three_item_state →
             shutting_down (node_of n s') = true ∧
             shutdown_calls (node_of n s')
               = S (shutdown_calls (node_of n three_item_state)).
Proof.
  apply (schedule_exhausting_collection three_item_state
           ["test_a"; "test_b"; "test_c"]%string);
    [reflexivity | reflexivity | reflexivity | reflexivity | discriminate | | ].
  - apply (NoDup_cons_2 0 [1]); [|apply (NoDup_singleton 1)].
    intros Hin. apply elem_of_cons in Hin as [Hin|Hin]; [discriminate|].
    by apply elem_of_nil in Hin.
  - vm_compute. lia.
Defined.

(** X8.  The first [schedule] with at least [initial_batch] items deals
    them out round-robin: the node at position [j] among the K known nodes
    gets, in this order, the indices [j], [K + j], [2K + j], ..., one per
    round, [_max_queue_size] of them; Pending keeps the rest in order; and
    when something is left in Pending no node is signalled. *)
Theorem schedule_round_robin s c :
  collection s = None →
  collection_is_completed s = true →
  _check_nodes_have_same_collection s = true →
  head (Dict.values (node2collection s)) = Some c →
  c ≠ [] →
  NoDup (nodes s) →
  initial_batch s ≤ length c →
  ∃ s', schedule s = Return tt s' ∧
        pending s' = seq (initial_batch s) (length c - initial_batch s) ∧
        (∀ j n, nodes s !! j = Some n →
                queue n s' = queue n s ++
                  map (fun i => i * length (nodes s) + j)
                      (seq 0 (_max_queue_size s))) ∧
        (initial_batch s < length c → signals_unchanged s s').
Proof.
  intros Hc Hcompl Hsame Hhead Hne Hnd Hlen.
  rewrite (schedule_first s c) by done.
  set (s1 := set_pending _ _).
  destruct (distribute_rounds_exact (nodes s) (_max_queue_size s) Hnd s1 0 (length c))
    as (Hr & Hp2 & Hn2 & Hq2); [done..|].
  fold (initial_batch s) in *.
  set (s2 := state_of (distribute (initial_batch s) (cycle (nodes s)) s1)) in *.
  assert (signals_unchanged s s2) as Hsig.
  { apply (distribute_preserves (signals_unchanged s)); [|by intros m].
    intros n. apply send_tests_signals. }
  rewrite bind_returned by done. fold s2.
  assert (∃ s3, shutdown_if_exhausted s2 = Return tt s3 ∧
                pending s3 = pending s2 ∧ node2pending s3 = node2pending s2 ∧
                (pending s2 ≠ [] → s3 = s2)) as (s3 & Hs3 & Hp3 & Hq3 & Hsame3).
  { unfold shutdown_if_exhausted. destruct (pending s2) eqn:Ep.
    - exists (state_of (for_each (nodes s2) node_shutdown s2)).
      split; [apply returned_Return, for_each_shutdown_returned|].
      pose proof (preserves_for_each
        (fun s' => pending s' = pending s2 ∧ node2pending s' = node2pending s2)
        (nodes s2) node_shutdown) as Hfr.
      destruct (Hfr ltac:(intros n _; frame) s2 (conj eq_refl eq_refl)) as [Hp' ->].
      rewrite Hp', Ep. done.
    - by exists s2. }
  rewrite bind_returned by (by rewrite Hs3). rewrite Hs3. simpl.
  eexists. split; [reflexivity|]. simpl. rewrite Hp3, Hp2. split_and!.
  - done.
  - intros j n Hj. unfold queue at 1. simpl. rewrite Hq3.
    change (default [] (Dict.get n (node2pending s2))) with (queue n s2).
    rewrite (Hq2 j n Hj). done.
  - intros Hlt. rewrite Hsame3; [done|]. rewrite Hp2.
    destruct (length c - initial_batch s) eqn:E; [lia | done].
Qed.

Lemma schedule_round_robin_witness :
  ∃ s', schedule two_node_state = Return tt s' ∧
        pending s' = seq (initial_batch two_node_state)
                         (length ten_items - initial_batch two_node_state) ∧
        (∀ j n, nodes two_node_state !! j = Some n →
                queue n s' = queue n two_node_state ++
                  map (fun i => i * length (nodes two_node_state) + j)
                      (seq 0 (_max_queue_size two_node_state))) ∧
        (initial_batch two_node_state < length ten_items →
         signals_unchanged two_node_state s').
Proof.
  apply (schedule_round_robin two_node_state ten_items);
    [reflexivity | reflexivity | reflexivity | reflexivity | discriminate | | ].
  - apply (NoDup_cons_2 0 [1]); [|apply (NoDup_singleton 1)].
    intros Hin. apply elem_of_cons in Hin as [Hin|Hin]; [discriminate|].
    by apply elem_of_nil in Hin.
  - vm_compute. lia.
Defined.

(** ** Indices leave Pending in collection order *)

Lemma send_tests_tail n num : preserves pending_is_tail (_send_tests n num).
Proof.
  intros s [Hle Hs]. destruct (send_tests_cases n num s) as [->|(q & Hq & _ & ->)]; [done|].
  unfold pending_is_tail, N in *. simpl. rewrite length_drop.
  split; [lia|]. rewrite Hs at 1. rewrite drop_seq.
  destruct (decide (Z.to_nat num ≤ length (pending s))).
  - f_equal. lia.
  - by replace (length (pending s) - Z.to_nat num) with 0 by lia.
Qed.

Lemma check_schedule_tail n d : preserves pending_is_tail (check_schedule n d).
Proof.
  apply check_schedule_preserves; [|frame|frame].
  intros s q Hs _ _. by apply send_tests_tail.
Qed.

Lemma schedule_tail : preserves pending_is_tail schedule.
Proof.
  intros s Hs. unfold schedule.
  destruct (negb (collection_is_completed s)); [done|].
  destruct (collection s) as [c0|] eqn:Ec.
  { apply preserves_for_each; [|done]. intros n _. apply check_schedule_tail. }
  destruct (negb (_check_nodes_have_same_collection s)); [exact Hs|].
  destruct (Dict.values (node2collection s)) as [|c _]; [done|].
  assert (pending_is_tail
            (set_pending (seq 0 (length c)) (set_collection (Some c) s))) as Hs1.
  { unfold pending_is_tail, N. simpl. rewrite length_seq, Nat.sub_diag. done. }
  destruct c as [|t c]; [exact Hs1|].
  apply initial_distribution_preserves; try done.
  - intros n. apply send_tests_tail.
  - intros n. frame.
  - frame.
Qed.

Lemma reachable_tail fin s : reachable fin s → pending_is_tail s.
Proof.
  induction 1 as [objs|fin s o _ IH]; [by split|].
  destruct o as [n|n c| |n d|n i d]; simpl.
  - unfold add_node. by destruct (Dict.get n (node2pending s)).
  - unfold add_node_collection. by destruct (Dict.get n (node2pending s)).
  - by apply schedule_tail.
  - by apply check_schedule_tail.
  - unfold mark_test_complete.
    destruct (Dict.get n (node2pending s)) as [q|]; [|done].
    destruct (list_remove i q) as [q'|]; [|done].
    by apply check_schedule_tail.
Qed.

Lemma handed_out_prefix fin s :
  wf fin s → pending_is_tail s →
  assigned s ++ fin ≡ₚ seq 0 (N s - length (pending s)).
Proof.
  intros (_ & _ & _ & Hp) [Hle Htail]. unfold partitioned in Hp.
  apply (Permutation_app_inv_l (pending s)). rewrite Hp.
  remember (length (pending s)) as m eqn:Em.
  remember (N s - m) as k eqn:Ek.
  replace (N s) with (k + m) by lia.
  rewrite seq_app, Htail. simpl. apply Permutation_app_comm.
Qed.

(** X9.  In every reachable state Pending is an interval [k, N) of the
    index range, in ascending order, and the indices sitting in node queues
    or completed are exactly the first [k]: items are handed out in
    collection order and never skipped. *)
Theorem pending_is_collection_tail fin s :
  reachable fin s →
  length (pending s) ≤ N s ∧
  pending s = seq (N s - length (pending s)) (length (pending s)) ∧
  assigned s ++ fin ≡ₚ seq 0 (N s - length (pending s)).
Proof.
  intros Hr. pose proof (reachable_tail _ _ Hr) as Htail.
  split; [apply Htail|]. split; [apply Htail|].
  apply handed_out_prefix; [|done]. by apply reachable_wf.
Qed.

Lemma pending_is_collection_tail_witness :
  length (pending example_state) ≤ N example_state ∧
  pending example_state
    = seq (N example_state - length (pending example_state))
          (length (pending example_state)) ∧
  assigned example_state ++ [0]
    ≡ₚ seq 0 (N example_state - length (pending example_state)).
Proof.
  apply (pending_is_collection_tail [0] example_state).
  exact example_state_reachable.
Defined.

(** ** Calling [schedule] again *)

Lemma check_schedule_queue_other n d m q0 :
  m ≠ n → preserves (fun s => queue m s = q0) (check_schedule n d).
Proof.
  intros Hne. apply check_schedule_preserves; [|frame|frame].
  intros s q Hs _ _. by rewrite send_tests_queue_other.
Qed.

(** A full queue stays full and an empty Pending stays empty, whichever
    node [check_schedule] is called on. *)
Lemma check_schedule_keeps_full x n d :
  preserves (fun s => sizes_fixed s ∧ (length (queue x s) = 2 ∨ pending s = []))
            (check_schedule n d).
Proof.
  apply check_schedule_preserves; [|frame|frame].
  intros s q [Hsz Hor] Hq Hlt. split; [by apply send_tests_sizes|].
  destruct Hor as [Hfull|Hnil]; [|right; by apply send_tests_pending_nil].
  left. rewrite send_tests_queue_other; [done|].
  intros ->. unfold queue in Hfull. rewrite Hq in Hfull. simpl in Hfull.
  destruct Hsz as [Hmin _]. lia.
Qed.

Lemma for_each_check_fills d l : ∀ s,
  sizes_fixed s → queues_bounded s →
  (∀ n, n ∈ l → n ∈ nodes s) →
  let s' := state_of (for_each l (fun n => check_schedule n d) s) in
  ∀ n, n ∈ l →
       shutting_down (node_of n s) = true ∨
       length (queue n s') = 2 ∨
       pending s' = [].
Proof.
  induction l as [|x l IH]; intros s Hsz Hb Hk; simpl.
  { by intros n ?%elem_of_nil. }
  set (s1 := state_of (check_schedule x d s)).
  assert (x ∈ nodes s) as Hx by (apply Hk; left).
  rewrite bind_returned by (by apply check_schedule_known_returned).
  fold s1.
  destruct (check_schedule_bounded x d s (conj Hsz Hb)) as [Hsz1 Hb1]. fold s1 in Hsz1, Hb1.
  assert (nodes s1 = nodes s) as Hn1 by (by apply check_schedule_nodes).
  assert (pending s1 = [] →
            pending (state_of (for_each l (fun n => check_schedule n d) s1)) = [])
    as Hnil.
  { intros Hp. apply (preserves_for_each (fun s' => pending s' = [])); [|done].
    intros n _. apply check_schedule_pending_nil. }
  intros n Hn.
  destruct (decide (shutting_down (node_of n s) = true)) as [|Hact]; [by left|].
  right. apply not_true_is_false in Hact.
  assert (length (queue n s1) = 2 ∨ pending s1 = [] ∨
          (n ∈ l ∧ shutting_down (node_of n s1) = false)) as Hcase.
  { destruct (decide (n = x)) as [->|Hne].
    - destruct (keys_elem_get _ _ Hx) as [q Hq].
      destruct Hsz as [Hmin Hmax].
      destruct (check_schedule_fills_node x d q s Hq Hact) as [Hfull|Hp].
      + by rewrite Hmin, Hmax.
      + specialize (Hb x). unfold queue in Hb. rewrite Hq in Hb. done.
      + left. fold s1 in Hfull. by rewrite Hfull, Hmax.
      + right; by left.
    - apply elem_of_cons in Hn as [?|Hl]; [done|].
      destruct (check_schedule_signals x d s) as [Hsig|Hp]; [|right; by left].
      right; right. split; [done|]. fold s1 in Hsig.
      by destruct (Hsig n) as [-> _]. }
  destruct Hcase as [Hfull|[Hp|[Hl Hact1]]].
  - pose proof (preserves_for_each
      (fun s' => sizes_fixed s' ∧ (length (queue n s') = 2 ∨ pending s' = []))
      l (fun m => check_schedule m d)) as Hkeep.
    destruct (Hkeep ltac:(intros m _; apply check_schedule_keeps_full) s1) as [_ Hor];
      [by split; [|left] | done].
  - right. by apply Hnil.
  - destruct (IH s1 Hsz1 Hb1) with (n := n) as [Hd|Hor]; [|done| |done].
    + intros m Hm. rewrite Hn1. apply Hk. by right.
    + congruence.
Qed.

(** X10.  Calling [schedule] after the initial distribution leaves no
    known, active node short: afterwards every node that was not draining
    has a full queue, or else Pending is empty.  This is how a node that
    joined late gets its first items. *)
Theorem reschedule_fills_or_exhausts s c n :
  collection s = Some c →
  collection_is_completed s = true →
  sizes_fixed s →
  queues_bounded s →
  n ∈ nodes s →
  returned (schedule s) = true ∧
  (shutting_down (node_of n s) = true ∨
   length (queue n (state_of (schedule s))) = 2 ∨
   pending (state_of (schedule s)) = []).
Proof.
  intros Hc Hcompl Hsz Hb Hn. unfold schedule. rewrite Hcompl, Hc. simpl.
  split; [by apply for_each_check_returned|].
  by apply for_each_check_fills.
Qed.

Lemma late_reported_state_reachable : reachable [] late_reported_state.
Proof.
  exact (reachable_trace late_reported_trace [] (init ∅) (reachable_init ∅)).
Qed.

Lemma reschedule_fills_or_exhausts_witness :
  returned (schedule late_reported_state) = true ∧
  (shutting_down (node_of 2 late_reported_state) = true ∨
   length (queue 2 (state_of (schedule late_reported_state))) = 2 ∨
   pending (state_of (schedule late_reported_state)) = []).
Proof.
  apply (reschedule_fills_or_exhausts late_reported_state ten_items 2).
  - reflexivity.
  - reflexivity.
  - apply (reachable_wf [] late_reported_state late_reported_state_reachable).
  - apply (reachable_wf [] late_reported_state late_reported_state_reachable).
  - right. right. left.
Defined.

(** Node 2, which joined with an empty queue, holds indices 4 and 5 after
    the second [schedule]. *)
Example reschedule_serves_late_node :
  node2pending (state_of (schedule late_reported_state))
    = [(0, [0; 2]); (1, [1; 3]); (2, [4; 5])] ∧
  pending (state_of (schedule late_reported_state)) = [6; 7; 8; 9].
Proof. split; reflexivity. Qed.

(** ** Every index is dispatched exactly once *)

Lemma get_Some_known {V} (d : list (node * V)) k v :
  Dict.get k d = Some v → k ∈ Dict.keys d.
Proof.
  intros Hk. destruct (decide (k ∈ Dict.keys d)) as [|Hn]; [done|].
  apply get_None_keys in Hn. congruence.
Qed.

Lemma concat_map_update (f f' : node → list nat) l x t :
  NoDup l → x ∈ l →
  f' x = f x ++ t →
  (∀ m, m ≠ x → f' m = f m) →
  concat (map f' l) ≡ₚ concat (map f l) ++ t.
Proof.
  intros Hnd Hx Hfx Hother. induction Hnd as [|a l Ha Hnd IH]; [by apply elem_of_nil in Hx|].
  simpl. destruct (decide (a = x)) as [->|Hne].
  - rewrite Hfx. assert (map f' l = map f l) as ->.
    { apply map_ext_in. intros m Hm%list_elem_of_In. apply Hother. by intros ->. }
    solve_Permutation.
  - apply elem_of_cons in Hx as [?|Hx]; [done|].
    rewrite (Hother a Hne), (IH Hx). solve_Permutation.
Qed.

Lemma all_dispatched_ext s s' :
  nodes s' = nodes s →
  (∀ n, dispatched (node_of n s') = dispatched (node_of n s)) →
  all_dispatched s' = all_dispatched s.
Proof.
  intros Hn Hd. unfold all_dispatched, dispatched_to. rewrite Hn.
  f_equal. apply map_ext. intros n. by rewrite Hd.
Qed.

Lemma send_tests_dispatch fin n num :
  preserves (dispatch_consistent fin) (_send_tests n num).
Proof.
  intros s (Hnd & Hun & Hperm).
  destruct (send_tests_cases n num s) as [->|(q & Hq & _ & ->)]; [done|].
  set (t := take (Z.to_nat num) (pending s)).
  assert (n ∈ nodes s) as Hn by (by eapply get_Some_known).
  assert (Dict.keys (Dict.set n (q ++ t) (node2pending s)) = nodes s) as Hkeys.
  { apply keys_set_known. eauto. }
  split_and!.
  - unfold nodes. simpl. by rewrite Hkeys.
  - intros m Hm. unfold nodes in Hm. simpl in Hm. rewrite Hkeys in Hm.
    rewrite <- (Hun m Hm). unfold node_of. simpl.
    rewrite lookup_insert_ne; [done|]. by intros ->.
  - unfold all_dispatched, assigned, nodes. simpl. rewrite Hkeys.
    rewrite (concat_map_update (fun m => dispatched_to m s) _ (nodes s) n t Hnd Hn).
    + fold (all_dispatched s). rewrite Hperm. unfold assigned.
      destruct (values_set_known _ _ _ Hq) as (l1 & l2 & E1 & E2).
      rewrite E1, E2, !concat_app. simpl. solve_Permutation.
    + unfold dispatched_to, node_of. simpl. rewrite lookup_insert_eq. simpl.
      rewrite concat_app. simpl. by rewrite app_nil_r.
    + intros m Hm. unfold dispatched_to, node_of. simpl.
      by rewrite lookup_insert_ne.
Qed.

Lemma node_shutdown_dispatch fin n :
  preserves (dispatch_consistent fin) (node_shutdown n).
Proof.
  intros s (Hnd & Hun & Hperm).
  assert (∀ m, dispatched (node_of m (state_of (node_shutdown n s)))
               = dispatched (node_of m s)) as Hd.
  { intros m. unfold node_of at 1. simpl. destruct (decide (n = m)) as [->|Hne].
    - by rewrite lookup_insert_eq.
    - by rewrite lookup_insert_ne. }
  split_and!; [done| |].
  - intros m Hm. rewrite Hd. by apply Hun.
  - by rewrite (all_dispatched_ext s (state_of (node_shutdown n s)) eq_refl Hd).
Qed.

Lemma check_schedule_dispatch fin n d :
  preserves (dispatch_consistent fin) (check_schedule n d).
Proof.
  apply check_schedule_preserves; [|apply node_shutdown_dispatch|frame].
  intros s q Hs _ _. by apply send_tests_dispatch.
Qed.

Lemma schedule_dispatch fin : preserves (dispatch_consistent fin) schedule.
Proof.
  intros s Hs. unfold schedule.
  destruct (negb (collection_is_completed s)); [done|].
  destruct (collection s) as [c0|] eqn:Ec.
  { apply preserves_for_each; [|done]. intros n _. apply check_schedule_dispatch. }
  destruct (negb (_check_nodes_have_same_collection s)); [exact Hs|].
  destruct (Dict.values (node2collection s)) as [|c _]; [done|].
  destruct c as [|t c]; [exact Hs|].
  apply initial_distribution_preserves; [| | |exact Hs].
  - intros n. apply send_tests_dispatch.
  - intros n. apply node_shutdown_dispatch.
  - frame.
Qed.

Lemma run_dispatch fin s o :
  dispatch_consistent fin s →
  dispatch_consistent (fin ++ completed_by o s) (state_of (run o s)).
Proof.
  intros Hs. pose proof Hs as (Hnd & Hun & Hperm).
  destruct o as [n|n c| |n d|n i d]; simpl; rewrite ?app_nil_r.
  - unfold add_node. destruct (Dict.get n (node2pending s)) eqn:En; [done|].
    assert (n ∉ nodes s) as Hn by (by apply get_None_keys).
    simpl. split_and!.
    + unfold nodes. simpl. rewrite keys_set_new by done.
      apply NoDup_app. split_and!; [done| |apply NoDup_singleton].
      by intros x Hx ->%list_elem_of_singleton.
    + intros m Hm. apply Hun. unfold nodes in Hm. simpl in Hm.
      rewrite keys_set_new in Hm by done.
      intros Hin. apply Hm, elem_of_app. by left.
    + unfold all_dispatched, assigned, nodes. simpl.
      rewrite keys_set_new, values_set_new by done.
      rewrite map_app, !concat_app. simpl.
      change (dispatched_to n (set_node2pending
                (Dict.set n [] (node2pending s)) s)) with (dispatched_to n s).
      unfold dispatched_to at 2. rewrite (Hun n Hn). simpl.
      rewrite !app_nil_r. exact Hperm.
  - unfold add_node_collection. by destruct (Dict.get n (node2pending s)).
  - by apply schedule_dispatch.
  - by apply check_schedule_dispatch.
  - unfold mark_test_complete.
    destruct (Dict.get n (node2pending s)) as [q|] eqn:Eq; [|by rewrite app_nil_r].
    destruct (list_remove i q) as [q'|] eqn:Er; [|by rewrite app_nil_r].
    apply check_schedule_dispatch.
    assert (Dict.keys (Dict.set n q' (node2pending s)) = nodes s) as Hkeys.
    { apply keys_set_known. eauto. }
    split_and!.
    + unfold nodes. simpl. by rewrite Hkeys.
    + intros m Hm. unfold nodes in Hm. simpl in Hm. rewrite Hkeys in Hm.
      by apply Hun.
    + unfold all_dispatched, assigned, nodes. simpl. rewrite Hkeys.
      fold (all_dispatched s). rewrite Hperm. unfold assigned.
      destruct (values_set_known _ _ _ Eq) as (l1 & l2 & E1 & E2).
      rewrite E1, E2, !concat_app. simpl.
      rewrite (list_remove_perm _ _ _ Er). solve_Permutation.
Qed.

Lemma run_trace_dispatch os : ∀ fin s,
  dispatch_consistent fin s →
  dispatch_consistent (run_trace os fin s).1 (run_trace os fin s).2.
Proof.
  induction os as [|o os IH]; intros fin s Hs; simpl; [done|].
  by apply IH, run_dispatch.
Qed.

(** X11.  Whatever sequence of operations a freshly built scheduler with
    fresh nodes goes through, the indices dispatched to the known nodes so
    far are exactly the first [k] indices of the collection, [k] being the
    number no longer pending, each dispatched once: no item is ever sent
    to two nodes or twice to one node, and none is skipped.  A node that
    is not known has been sent nothing. *)
Theorem every_index_dispatched_once os :
  let s := (run_trace os [] (init ∅)).2 in
  all_dispatched s ≡ₚ seq 0 (N s - length (pending s)) ∧
  NoDup (all_dispatched s) ∧
  ∀ n, n ∉ nodes s → dispatched (node_of n s) = [].
Proof.
  intros s.
  assert (dispatch_consistent [] (init ∅)) as Hinit.
  { split_and!; [apply NoDup_nil_2|done|done]. }
  pose proof (run_trace_dispatch os [] (init ∅) Hinit) as (_ & Hun & Hperm).
  pose proof (reachable_trace os [] (init ∅) (reachable_init ∅)) as Hr.
  fold s in Hun, Hperm, Hr.
  assert (all_dispatched s ≡ₚ seq 0 (N s - length (pending s))) as Hall.
  { rewrite Hperm. apply handed_out_prefix.
    - by apply reachable_wf.
    - by eapply reachable_tail. }
  split_and!; [done| |done].
  rewrite Hall. apply NoDup_seq.
Qed.

(** ** Draining the nodes once the work is handed out *)

(** With Pending empty, [check_schedule] signals the node unless it is
    already draining, and touches nothing else. *)
Lemma check_schedule_exhausted n d s :
  pending s = [] →
  let s' := state_of (check_schedule n d s) in
  pending s' = [] ∧
  node2pending s' = node2pending s ∧
  shutting_down (node_of n s') = true ∧
  shutdown_calls (node_of n s')
    = shutdown_calls (node_of n s) + (if shutting_down (node_of n s) then 0 else 1) ∧
  ∀ m, m ≠ n → node_of m s' = node_of m s.
Proof.
  intros Hp. unfold check_schedule.
  destruct (shutting_down (node_of n s)) eqn:Hd; simpl.
  { rewrite Hd. split_and!; first [done | lia]. }
  rewrite Hp. simpl. unfold node_of. simpl. rewrite lookup_insert_eq. simpl.
  split_and!; try first [done | lia].
  intros m Hm. by rewrite lookup_insert_ne.
Qed.

Lemma for_each_check_exhausted d l : NoDup l → ∀ s,
  pending s = [] →
  let s' := state_of (for_each l (fun n => check_schedule n d) s) in
  pending s' = [] ∧
  node2pending s' = node2pending s ∧
  (∀ m, m ∈ l →
        shutting_down (node_of m s') = true ∧
        shutdown_calls (node_of m s')
          = shutdown_calls (node_of m s)
            + (if shutting_down (node_of m s) then 0 else 1)) ∧
  (∀ m, m ∉ l → node_of m s' = node_of m s).
Proof.
  induction 1 as [|x l Hx Hnd IH]; intros s Hp; simpl.
  { split_and!; try done. by intros m ?%elem_of_nil. }
  rewrite state_of_bind.
  destruct (check_schedule_exhausted x d s Hp) as (Hp1 & Hq1 & Hd1 & Hc1 & Ho1).
  set (s1 := state_of (check_schedule x d s)) in *.
  assert (returned (check_schedule x d s) = true) as ->.
  { unfold check_schedule. rewrite Hp.
    destruct (shutting_down (node_of x s)); reflexivity. }
  destruct (IH s1 Hp1) as (Hp2 & Hq2 & Hin & Hout).
  split_and!; [done|by rewrite Hq2| |].
  - intros m [->|Hm]%elem_of_cons.
    + rewrite (Hout x Hx). done.
    + destruct (Hin m Hm) as [-> ->]. rewrite Ho1; [done|]. by intros ->.
  - intros m [Hm1 Hm2]%not_elem_of_cons. by rewrite Hout, Ho1.
Qed.

(** X12.  Calling [schedule] once the collection is adopted and Pending is
    empty puts every known node into the draining state: a node that was
    not draining receives exactly one shutdown signal, a node that already
    was receives none, and no queue changes. *)
Theorem schedule_after_exhaustion s c :
  collection s = Some c →
  collection_is_completed s = true →
  pending s = [] →
  NoDup (nodes s) →
  let s' := state_of (schedule s) in
  node2pending s' = node2pending s ∧
  pending s' = [] ∧
  ∀ n, n ∈ nodes s →
       shutting_down (node_of n s') = true ∧
       shutdown_calls (node_of n s')
         = shutdown_calls (node_of n s)
           + (if shutting_down (node_of n s) then 0 else 1).
Proof.
  intros Hc Hcompl Hp Hnd. unfold schedule. rewrite Hcompl, Hc. simpl.
  destruct (for_each_check_exhausted duration_default (nodes s) Hnd s Hp)
    as (Hp' & Hq' & Hin & _).
  by split_and!.
Qed.

Lemma late_idle_state_reachable : reachable [] late_idle_state.
Proof.
  exact (reachable_trace late_idle_trace [] (init ∅) (reachable_init ∅)).
Qed.

Lemma schedule_after_exhaustion_witness :
  let s' := state_of (schedule late_idle_state) in
  node2pending s' = node2pending late_idle_state ∧
  pending s' = [] ∧
  ∀ n, n ∈ nodes late_idle_state →
       shutting_down (node_of n s') = true ∧
       shutdown_calls (node_of n s')
         = shutdown_calls (node_of n late_idle_state)
           + (if shutting_down (node_of n late_idle_state) then 0 else 1).
Proof.
  apply (schedule_after_exhaustion late_idle_state
           ["test_a"; "test_b"; "test_c"]%string).
  - reflexivity.
  - reflexivity.
  - reflexivity.
  - apply (reachable_wf [] late_idle_state late_idle_state_reachable).
Defined.

(** The late node is the only one that gets a signal from this call. *)
Example schedule_after_exhaustion_signals_late_node :
  map (fun n => shutdown_calls (node_of n late_idle_state)) [0; 1; 2] = [1; 1; 0] ∧
  map (fun n => shutdown_calls (node_of n (state_of (schedule late_idle_state))))
      [0; 1; 2] = [1; 1; 1].
Proof. split; reflexivity. Qed.

(** ** Calling [schedule] twice in a row *)

(** When every node of the list is draining, or full, or Pending is empty,
    a round of [check_schedule] over the list moves no index. *)
Lemma for_each_check_settled d l : ∀ s,
  (∀ n, n ∈ l →
        shutting_down (node_of n s) = true ∨
        _min_queue_size s ≤ length (queue n s) ∨
        pending s = []) →
  pending (state_of (for_each l (fun n => check_schedule n d) s)) = pending s ∧
  node2pending (state_of (for_each l (fun n => check_schedule n d) s))
    = node2pending s.
Proof.
  induction l as [|x l IH]; intros s Hset; simpl; [done|].
  set (s1 := state_of (check_schedule x d s)).
  assert (pending s1 = pending s ∧ node2pending s1 = node2pending s) as [Hp1 Hq1].
  { destruct (Hset x ltac:(left)) as [Hd|Hor].
    - unfold s1, check_schedule. by rewrite Hd.
    - apply check_schedule_stable. tauto. }
  rewrite state_of_bind. fold s1. destruct (returned _); [|done].
  destruct (IH s1) as [Hp2 Hq2]; [|by rewrite Hp2, Hq2].
  intros n Hn.
  destruct (check_schedule_bounds x d _ _ s (conj eq_refl eq_refl)) as [Hmin _].
  fold s1 in Hmin. rewrite Hmin, Hp1. unfold queue. rewrite Hq1.
  destruct (Hset n ltac:(by right)) as [Hd|Hor]; [|tauto].
  destruct (check_schedule_signals x d s) as [Hsig|Hnil].
  - left. fold s1 in Hsig. by destruct (Hsig n) as [-> _].
  - right; right. fold s1 in Hnil. by rewrite <- Hp1.
Qed.

(** After a [schedule] that found the collections complete, every known
    node is draining, or holds two indices, or Pending is empty, unless no
    collection could be adopted. *)
Lemma schedule_settles fin s :
  wf fin s →
  collection_is_completed s = true →
  let s' := state_of (schedule s) in
  collection s' = None ∨
  ∀ n, n ∈ nodes s' →
       shutting_down (node_of n s') = true ∨
       2 ≤ length (queue n s') ∨
       pending s' = [].
Proof.
  intros Hwf Hcompl. pose proof Hwf as (Hnd & Hsz & Hb & Hpart).
  pose proof (schedule_kept s) as [Hnodes _]. cbv zeta. rewrite Hnodes.
  unfold schedule. rewrite Hcompl. simpl.
  destruct (collection s) as [c0|] eqn:Ec.
  { right. intros n Hn.
    destruct (for_each_check_fills duration_default (nodes s) s Hsz Hb
                ltac:(done) n Hn) as [Hd|[Hfull|Hp]].
    - destruct (for_each_check_signals duration_default (nodes s) s) as [Hsig|Hp].
      + left. by destruct (Hsig n) as [-> _].
      + by right; right.
    - right; left. by rewrite Hfull.
    - by right; right. }
  destruct (negb (_check_nodes_have_same_collection s)); [by left|].
  destruct (Dict.values (node2collection s)) as [|c _]; [by left|].
  right. intros n Hn.
  destruct c as [|t c]; [by right; right|].
  set (s1 := set_pending _ _).
  right.
  set (s2 := state_of (distribute (initial_batch s1) (cycle (nodes s1)) s1)).
  assert (2 ≤ length (queue n s2) ∨ pending s2 = []) as Hdist.
  { destruct (partitioned_no_collection fin s Ec Hpart) as (_ & Hass & _).
    destruct Hsz as [_ Hmax].
    destruct (decide (initial_batch s1 ≤ length (t :: c))) as [Hle|Hgt].
    - left.
      destruct (distribute_rounds_exact (nodes s) (_max_queue_size s) Hnd s1 0
                  (length (t :: c))) as (_ & _ & _ & Hq); [done..|].
      apply list_elem_of_lookup_1 in Hn as [j Hj].
      unfold s2. change (initial_batch s1)
        with (_max_queue_size s * length (nodes s)).
      change (nodes s1) with (nodes s).
      rewrite (Hq j n Hj), length_app, length_map, length_seq. lia.
    - right.
      destruct (distribute_returned (initial_batch s1) (cycle (nodes s1)) s1)
        as [_ Hp].
      + unfold initial_batch in Hgt. change (nodes s1) with (nodes s) in *.
        destruct (nodes s); [simpl in Hgt; lia | by left].
      + by intros m [?|?].
      + fold s2 in Hp. rewrite Hp. apply drop_ge. simpl. rewrite length_seq.
        simpl in Hgt. lia. }
  rewrite state_of_bind. fold s2. destruct (returned _); [|done].
  apply (preserves_bind (fun s' => 2 ≤ length (queue n s') ∨ pending s' = []));
    [|frame|done].
  apply shutdown_if_exhausted_preserves. intros m. frame.
Qed.

(** A [schedule] that leaves the collection unset has done nothing but,
    at most, log the abort message. *)
Lemma schedule_no_collection s :
  collection_is_completed s = true →
  collection (state_of (schedule s)) = None →
  collection s = None ∧
  ((_check_nodes_have_same_collection s = false ∧
    state_of (schedule s) = set_out (out s ++ [Logged MsgAbort]) s) ∨
   (_check_nodes_have_same_collection s = true ∧
    Dict.values (node2collection s) = [] ∧ state_of (schedule s) = s)).
Proof.
  intros Hcompl. unfold schedule. rewrite Hcompl. simpl.
  destruct (collection s) as [c0|] eqn:Ec.
  { intros Hnone. exfalso.
    pose proof (preserves_for_each (fun s' => collection s' = Some c0) (nodes s)
                  (fun n => check_schedule n duration_default)
                  ltac:(intros n _; apply check_schedule_collection) s Ec) as Hc.
    congruence. }
  destruct (_check_nodes_have_same_collection s); simpl.
  2: { intros Hnone. split; [done|]. by left. }
  destruct (Dict.values (node2collection s)) as [|c cs].
  { intros Hnone. split; [done|]. by right. }
  destruct c as [|t c]; [done|].
  intros Hnone. exfalso.
  set (s1 := set_pending _ _) in Hnone.
  pose proof (initial_distribution_preserves
                (fun s' => collection s' = Some (t :: c))
                (initial_batch s1) (cycle (nodes s1)) "schedule"
                ltac:(intros n; apply send_tests_collection)
                ltac:(intros n; frame) ltac:(frame) s1 eq_refl) as Hc.
  congruence.
Qed.

Lemma completed_kept s s' :
  configuration_kept s s' →
  collection_is_completed s' = collection_is_completed s.
Proof.
  intros (Hn & Hnc & _). unfold collection_is_completed. by rewrite Hn, Hnc.
Qed.

(** X13.  From any reachable state, a second [schedule] right after the
    first moves no index: Pending and all node queues are as the first call
    left them.  Whatever [schedule] hands out, it hands out in one call. *)
Theorem schedule_twice_moves_nothing fin s :
  reachable fin s →
  let s' := state_of (schedule s) in
  pending (state_of (schedule s')) = pending s' ∧
  node2pending (state_of (schedule s')) = node2pending s'.
Proof.
  intros Hwf%reachable_wf s'.
  destruct (collection_is_completed s) eqn:Hcompl.
  2: { assert (s' = s) as -> by (unfold s', schedule; by rewrite Hcompl).
       unfold schedule. by rewrite Hcompl. }
  assert (collection_is_completed s' = true) as Hcompl'.
  { rewrite <- Hcompl. apply completed_kept, schedule_kept. }
  destruct (collection s') as [c'|] eqn:Ec'.
  - destruct (schedule_settles fin s Hwf Hcompl) as [Hnone|Hset];
      [fold s' in Hnone; congruence|]. fold s' in Hset.
    destruct (schedule_wf fin s Hwf) as (_ & [Hmin _] & _). fold s' in Hmin.
    unfold schedule. rewrite Hcompl', Ec'. simpl.
    apply for_each_check_settled. intros n Hn. rewrite Hmin. by apply Hset.
  - assert (∀ t, s' = t → node2collection t = node2collection s →
              _check_nodes_have_same_collection s'
                = _check_nodes_have_same_collection s ∧
              Dict.values (node2collection s') = Dict.values (node2collection s))
      as Hreg.
    { intros t -> Ht. unfold _check_nodes_have_same_collection. by rewrite Ht. }
    destruct (schedule_no_collection s Hcompl Ec')
      as (Ec & [[Hsame Hs']|(Hsame & Hv & Hs')]); fold s' in Hs';
      destruct (Hreg _ Hs' eq_refl) as [Hsame' Hv'];
      unfold schedule; rewrite Hcompl', Ec', Hsame', Hsame; simpl; [done|].
    by rewrite Hv', Hv.
Qed.

Lemma schedule_twice_moves_nothing_witness :
  let s' := state_of (schedule late_reported_state) in
  pending (state_of (schedule s')) = pending s' ∧
  node2pending (state_of (schedule s')) = node2pending s'.
Proof.
  apply (schedule_twice_moves_nothing [] late_reported_state).
  exact late_reported_state_reachable.
Defined.

(** ** Diagnostics *)

(** X14.  [check_schedule] writes diagnostics on every path except its
    early return on a draining node and the failed lookup: then exactly
    three entries are appended, the queue map printed and logged, and the
    number of pending indices logged, and they describe the state after
    the assignment, not before.  (With [_min_queue_size] above
    [_max_queue_size] the withhold branch would be one more silent path.) *)
Theorem check_schedule_diagnostics n d s :
  let s' := state_of (check_schedule n d s) in
  let m := MsgQueues (_log_prefix s) "check_schedule" (node2pending s') in
  (shutting_down (node_of n s) = true ∨ returned (check_schedule n d s) = false →
   out s' = out s) ∧
  (shutting_down (node_of n s) = false →
   returned (check_schedule n d s) = true →
   _min_queue_size s ≤ _max_queue_size s →
   out s' = out s ++ [Printed m; Logged m; Logged (MsgWaiting (length (pending s')))]).
Proof.
  assert (∀ s0, out (state_of (check_schedule_log s0))
                = out s0 ++ [Printed (MsgQueues (_log_prefix s0) "check_schedule"
                                        (node2pending s0));
                             Logged (MsgQueues (_log_prefix s0) "check_schedule"
                                       (node2pending s0));
                             Logged (MsgWaiting (length (pending s0)))]) as Hlog.
  { intros s0. simpl. by rewrite <- !app_assoc. }
  cbv zeta. unfold check_schedule.
  destruct (shutting_down (node_of n s)) eqn:Hd.
  { split; [done | intros [=]]. }
  destruct (pending s) as [|x p] eqn:Ep.
  { split; [by intros [[=]|[=]]|]. intros _ _ _. simpl. by rewrite <- !app_assoc. }
  destruct (Dict.get n (node2pending s)) as [q|] eqn:Eq; [|by split].
  case_decide as Hlt.
  2: { split; [by intros [[=]|[=]]|]. intros _ _ _. exact (Hlog s). }
  destruct (duration_ge_threshold d && _) eqn:Hw.
  { split; [done|]. intros _ _ Hle.
    apply andb_true_iff in Hw as [_ Hmax%bool_decide_eq_true]. lia. }
  set (num := (Z.of_nat (_max_queue_size s) - Z.of_nat (length q))%Z).
  destruct (send_tests_known n num q s Eq) as (s1 & Hs1 & _ & _ & Ho1 & _).
  pose proof (send_tests_kept n num s s (configuration_kept_refl s))
    as (_ & _ & _ & _ & Hpre & _).
  rewrite Hs1 in Hpre. simpl in Hpre.
  rewrite bind_returned by (by rewrite Hs1). rewrite Hs1.
  change (state_of (Return tt s1)) with s1.
  split; [by intros [[=]|[=]]|]. intros _ _ _.
  etrans; [exact (Hlog s1)|]. by rewrite Ho1, Hpre.
Qed.

(** ** The conditional statements above, at concrete states *)

Lemma check_schedule_raises_iff_witness :
  check_schedule 9 duration_default distributed_state
    = Raise KeyError distributed_state ∧
  returned (check_schedule 0 duration_default distributed_state) = true.
Proof.
  split.
  - apply (proj1 (check_schedule_raises_iff 9 duration_default distributed_state)).
    split; [reflexivity|]. split; [discriminate|].
    intros Hin. apply elem_of_cons in Hin as [Hin|Hin]; [discriminate|].
    apply elem_of_cons in Hin as [Hin|Hin]; [discriminate|].
    by apply elem_of_nil in Hin.
  - apply (proj2 (check_schedule_raises_iff 0 duration_default distributed_state)).
    right. right. left.
Defined.

Lemma schedule_raises_only_on_entry_witness :
  schedule late_join_state = Raise AssertionError late_join_state ∧
  returned (schedule late_reported_state) = true.
Proof.
  split.
  - apply (proj1 (schedule_raises_only_on_entry late_join_state)). reflexivity.
  - apply (proj2 (proj2 (schedule_raises_only_on_entry late_reported_state)));
      [reflexivity | left; discriminate].
Defined.

Lemma check_schedule_diagnostics_witness :
  let s' := state_of (check_schedule 2 duration_default late_join_state) in
  let m := MsgQueues (_log_prefix late_join_state) "check_schedule" (node2pending s') in
  out s' = out late_join_state
             ++ [Printed m; Logged m; Logged (MsgWaiting (length (pending s')))].
Proof.
  apply (proj2 (check_schedule_diagnostics 2 duration_default late_join_state));
    first [reflexivity | simpl; lia].
Defined.
